(** * Patterns-2024-Tasks, Unit1/Task1: CSV -> Region -> RegionCollection -> view

    A shallow embedding of [Unit1/Task1/soc-opt-class.js] (module
    [Unit1Task1] for what is particular to it) and of the refactored
    variant of the same file (module [Refactored]), followed by the
    properties of the pipeline.  The two variants share [Region],
    [RegionCollection] and most of [CSV]; they differ in [CSV.from], in the
    name of the separator option and in how the view composes a line.

    Modelling conventions.
    - A JavaScript string is a [string]: a sequence of code units, here the
      code units 0..255.
    - A JavaScript number that the program stores (a field of a [Region], the
      result of [parseInt], of [Math.round], of [Math.max]) is a [number]:
      NaN, the two infinities, or an integer in sign-magnitude form, so that
      [-0] is a value of its own.  The one place where the program holds a
      fraction is the quotient inside [densityRelativeTo]; it has the type
      [quotient] and is rounded at once.  Finite arithmetic is exact: what
      binary64 does to integers of magnitude 2^52 and more (rounding,
      overflow, the exponent form of [toString] from 10^21 on) is not
      modelled.
    - A JavaScript object used as a bag of named values is a
      [gmap string jsval].  Objects and arrays that are shared and changed
      in place are held by location: the option bags in a [heap], the
      arrays of regions in a [store].
    - A call that can throw returns a [completion]; the other functions are
      total, as the code they model cannot throw. *)

From Stdlib Require Import ZArith NArith Ascii String DecimalString.
From Stdlib Require Import DecimalPos DecimalN.
From Stdlib Require Import Sorting.Sorted Sorting.Permutation.
From stdpp Require Import gmap strings list fin_maps.

Local Open Scope Z_scope.

(** ** Numbers *)

Inductive number : Type :=
  | NaN
  | Inf (neg : bool)
  | Fin (neg : bool) (mag : N).

(** The fraction [±n/d] (with [-0] when [n = 0]), or a special value. *)
Inductive quotient : Type :=
  | QNaN
  | QInf (neg : bool)
  | QFin (neg : bool) (n : N) (d : positive).

Definition Infinity : number := Inf false.
Definition int (z : Z) : number := Fin (z <? 0) (Z.abs_N z).
Definition signed (neg : bool) (mag : N) : Z :=
  if neg then - Z.of_N mag else Z.of_N mag.

#[global] Instance number_eq_dec : EqDecision number.
Proof. solve_decision. Defined.

(** [x < y] of the language: false as soon as one side is NaN. *)
Definition num_lt (x y : number) : bool :=
  match x, y with
  | NaN, _ | _, NaN => false
  | Inf s1, Inf s2 => s1 && negb s2
  | Inf s, Fin _ _ => s
  | Fin _ _, Inf s => negb s
  | Fin s1 n1, Fin s2 n2 => signed s1 n1 <? signed s2 n2
  end.

(** [x * y] *)
Definition num_mul (x y : number) : number :=
  match x, y with
  | NaN, _ | _, NaN => NaN
  | Inf s1, Inf s2 => Inf (xorb s1 s2)
  | Inf s1, Fin s2 n | Fin s2 n, Inf s1 =>
      if (n =? 0)%N then NaN else Inf (xorb s2 s1)
  | Fin s1 n1, Fin s2 n2 => Fin (xorb s1 s2) (n1 * n2)
  end.

(** [x / y] *)
Definition num_div (x y : number) : quotient :=
  match x, y with
  | NaN, _ | _, NaN => QNaN
  | Inf _, Inf _ => QNaN
  | Inf s1, Fin s2 _ => QInf (xorb s1 s2)
  | Fin s1 _, Inf s2 => QFin (xorb s1 s2) 0 1
  | Fin s1 n1, Fin s2 N0 =>
      if (n1 =? 0)%N then QNaN else QInf (xorb s1 s2)
  | Fin s1 n1, Fin s2 (Npos d) => QFin (xorb s1 s2) n1 d
  end.

(** [x - y] *)
Definition num_sub (x y : number) : number :=
  match x, y with
  | NaN, _ | _, NaN => NaN
  | Inf s1, Inf s2 => if eqb s1 s2 then NaN else Inf s1
  | Inf s1, Fin _ _ => Inf s1
  | Fin _ _, Inf s2 => Inf (negb s2)
  | Fin s1 n1, Fin s2 n2 =>
      let z := signed s1 n1 - signed s2 n2 in
      if z =? 0 then Fin (s1 && negb s2) 0 else int z
  end.

(** [Math.round]: the nearest integer, a tie going to the one closer to
    +Infinity; a negative argument that rounds to zero gives [-0]. *)
Definition Math_round (q : quotient) : number :=
  match q with
  | QNaN => NaN
  | QInf s => Inf s
  | QFin false n d => Fin false ((2 * n + Npos d) / (2 * Npos d))
  | QFin true n d => Fin true ((2 * n + Npos d - 1) / (2 * Npos d))
  end.

(** [Math.max(...values)]: starts from -Infinity, NaN is absorbing, and +0
    is above -0. *)
Definition max_step (highest value : number) : number :=
  let highest :=
    match value, highest with
    | Fin false N0, Fin true N0 => Fin false 0
    | _, _ => highest
    end in
  if num_lt highest value then value else highest.

Fixpoint Math_max_from (highest : number) (values : list number) : number :=
  match values with
  | [] => highest
  | NaN :: _ => NaN
  | value :: rest => Math_max_from (max_step highest value) rest
  end.

Definition Math_max (values : list number) : number :=
  Math_max_from (Inf true) values.

(** [Number.prototype.toString()] on the integers (decimal digits, as the
    language prints them below 10^21) and the special values. *)
Definition Number_toString (x : number) : string :=
  match x with
  | NaN => "NaN"
  | Inf false => "Infinity"
  | Inf true => "-Infinity"
  | Fin s n =>
      let digits := NilEmpty.string_of_uint (N.to_uint n) in
      if s && negb (n =? 0)%N then "-" +:+ digits else digits
  end.

(** ** Values, strings *)

Definition LF : string := String "010" "".
Definition CRLF : string := String "013" (String "010" "").

(** The values that occur in a parsed record or in an options bag. *)
Inductive jsval : Type :=
  | VUndefined
  | VBool (b : bool)
  | VString (s : string).

#[global] Instance jsval_eq_dec : EqDecision jsval.
Proof. solve_decision. Defined.

Definition ToString (v : jsval) : string :=
  match v with
  | VUndefined => "undefined"
  | VBool true => "true"
  | VBool false => "false"
  | VString s => s
  end.

Definition ToBoolean (v : jsval) : bool :=
  match v with
  | VUndefined => false
  | VBool b => b
  | VString s => negb (String.eqb s "")
  end.

(** Reading a property of an object: [undefined] when it is absent. *)
Definition prop (o : gmap string jsval) (key : string) : jsval :=
  default VUndefined (o !! key).

Inductive error : Type := TypeError.

(** The outcome of a call that may throw. *)
Inductive completion (A : Type) : Type :=
  | Normal (a : A)
  | Throw (e : error).
Arguments Normal {A} a.
Arguments Throw {A} e.

#[global] Instance completion_ret : MRet completion := @Normal.
#[global] Instance completion_bind : MBind completion := fun A B k c =>
  match c with
  | Normal a => k a
  | Throw e => Throw e
  end.

Fixpoint spaces (n : nat) : string :=
  match n with
  | O => ""
  | S n' => String " " (spaces n')
  end.

(** [s.padEnd(maxLength)] and [s.padStart(maxLength)] with the default
    filler, a space; a string already that long is returned as it is. *)
Definition padEnd (s : string) (maxLength : nat) : string :=
  s +:+ spaces (maxLength - String.length s).

Definition padStart (s : string) (maxLength : nat) : string :=
  spaces (maxLength - String.length s) +:+ s.

(** The same two methods called on a value: only a string has them. *)
Definition call_padEnd (v : jsval) (maxLength : nat) : completion string :=
  match v with
  | VString s => Normal (padEnd s maxLength)
  | _ => Throw TypeError
  end.

Definition call_padStart (v : jsval) (maxLength : nat) : completion string :=
  match v with
  | VString s => Normal (padStart s maxLength)
  | _ => Throw TypeError
  end.

(** [parts.join(separator)] on an array of strings. *)
Fixpoint join (separator : string) (parts : list string) : string :=
  match parts with
  | [] => ""
  | [p] => p
  | p :: rest => p +:+ separator +:+ join separator rest
  end.

(** [starts_with sep str]: does [str] begin with [sep]? *)
Fixpoint starts_with (sep str : string) : bool :=
  match sep, str with
  | EmptyString, _ => true
  | String a sep', String b str' =>
      if Ascii.eqb a b then starts_with sep' str' else false
  | String _ _, EmptyString => false
  end.

(** The loop of [split] for a non-empty separator [sep]: [skip] counts the
    code units of a matched separator still to be passed over, [cur] is the
    piece collected since the last separator. *)
Fixpoint split_loop (sep : string) (skip : nat) (cur : string) (str : string)
  : list string :=
  match str with
  | EmptyString => [cur]
  | String c str' =>
      match skip with
      | S k => split_loop sep k cur str'
      | O =>
          if starts_with sep str
          then cur :: split_loop sep (String.length sep - 1) "" str'
          else split_loop sep 0 (cur +:+ String c "") str'
      end
  end.

Fixpoint code_units (str : string) : list string :=
  match str with
  | EmptyString => []
  | String c str' => String c "" :: code_units str'
  end.

(** [str.split(separator)] without a limit. *)
Definition split (str : string) (separator : jsval) : list string :=
  match separator with
  | VUndefined => [str]
  | _ =>
      let sep := ToString separator in
      if String.eqb sep "" then code_units str else split_loop sep 0 "" str
  end.

(** White space that [parseInt] skips, among the code units 0..255:
    TAB, LF, VT, FF, CR, SP and NBSP. *)
Definition is_white_space (c : ascii) : bool :=
  let n := nat_of_ascii c in
  ((9 <=? n) && (n <=? 13) || (n =? 32) || (n =? 160))%nat.

Fixpoint trim_start (s : string) : string :=
  match s with
  | String c s' => if is_white_space c then trim_start s' else s
  | EmptyString => ""
  end.

Definition digit_value (c : ascii) : option N :=
  let n := N_of_ascii c in
  if ((48 <=? n) && (n <=? 57))%N then Some (n - 48)%N else None.

(** The value of the longest prefix of decimal digits, read after [acc]. *)
Fixpoint digits_value (acc : N) (s : string) : N :=
  match s with
  | String c s' =>
      match digit_value c with
      | Some d => digits_value (10 * acc + d)%N s'
      | None => acc
      end
  | EmptyString => acc
  end.

(** [parseInt(input, 10)] *)
Definition parseInt (input : jsval) : number :=
  let str := trim_start (ToString input) in
  let '(sign, str) :=
    match str with
    | String "-" str' => (true, str')
    | String "+" str' => (false, str')
    | _ => (false, str)
    end in
  match str with
  | String c _ =>
      match digit_value c with
      | Some _ => Fin sign (digits_value 0 str)
      | None => NaN
      end
  | EmptyString => NaN
  end.

(** ** The heap of option bags *)

(** Objects that are shared between calls are held by location. *)
Abbreviation heap := (gmap positive (gmap string jsval)).

Definition get (h : heap) (l : positive) (key : string) : jsval :=
  prop (h !!! l) key.

(** [Object.assign(target, source)]: every property of [source] is written
    into the object at [target], in place. *)
Definition Object_assign (target source : positive) (h : heap) : heap :=
  alter (fun t => (h !!! source) ∪ t) target h.

(** ** class CSV *)

Record CSV : Type := { csv : string; options : positive }.

(** What [parse] returns: records when the headers option is truthy, the
    raw table otherwise. *)
Inductive parsed : Type :=
  | Records (records : list (gmap string jsval))
  | Table (table : list (list string)).

(** [row[index]] *)
Definition cell (row : list string) (index : nat) : jsval :=
  match row !! index with
  | Some s => VString s
  | None => VUndefined
  end.

(** [Object.fromEntries(entries)]: the properties are created in order, a
    later entry replacing an earlier one with the same key. *)
Definition Object_fromEntries (entries : list (string * jsval)) : gmap string jsval :=
  foldl (fun o e => <[e.1 := e.2]> o) ∅ entries.

Definition createRecord (headers row : list string) : gmap string jsval :=
  Object_fromEntries (imap (fun index header => (header, cell row index)) headers).

(** [const [headers] = table; table.slice(1).map(...)]: on an empty table
    [headers] is undefined and the body is empty, so nothing is mapped. *)
Definition withHeaders (table : list (list string)) : list (gmap string jsval) :=
  match table with
  | [] => []
  | headers :: body => map (fun row => createRecord headers row) body
  end.

Section CSV_methods.
(** The property under which [#makeTable] reads the field separator. *)
Variable separator_key : string.

Definition makeTable (h : heap) (this : CSV) : list (list string) :=
  let lines := split (csv this) (get h (options this) "eol") in
  map (fun line => split line (get h (options this) separator_key)) lines.

Definition parse (h : heap) (this : CSV) : parsed :=
  let table := makeTable h this in
  if ToBoolean (get h (options this) "headers")
  then Records (withHeaders table)
  else Table table.
End CSV_methods.

(** Where the class keeps its static [DEFAULT_OPTIONS] object. *)
Definition DEFAULT_OPTIONS : positive := 1%positive.

(** [new CSV(csv, options)]; an omitted [options] is the static object
    itself, not a copy. *)
Definition new_CSV (csv : string) (options : option positive) : CSV :=
  {| csv := csv; options := default DEFAULT_OPTIONS options |}.

(** ** class Region *)

Record Region : Type := {
  city : jsval;
  population : number;
  area : number;
  density : number;
  country : jsval;
}.

Definition densityRelativeTo (this : Region) (value : number) : number :=
  Math_round (num_div (num_mul (density this) (int 100)) value).

(** [Region.from({ city, population, area, density, country })] *)
Definition Region_from (item : gmap string jsval) : Region :=
  {| city := prop item "city";
     population := parseInt (prop item "population");
     area := parseInt (prop item "area");
     density := parseInt (prop item "density");
     country := prop item "country" |}.

(** ** class RegionCollection *)

(** The arrays of regions, held by location: a collection keeps the array
    it was given and changes it in place. *)
Abbreviation store := (gmap positive (list Region)).

Record RegionCollection : Type := { regions : positive }.

(** [array.pop()]: drops the last element; an empty array stays empty. *)
Definition Array_pop (a : list Region) : list Region := removelast a.

(** The comparison the sort makes of a comparator's result: NaN counts as
    +0. *)
Definition SortCompare (comparefn : Region -> Region -> number) (x y : Region)
  : number :=
  match comparefn x y with
  | NaN => Fin false 0
  | v => v
  end.

(** [array.sort(comparefn)], as a stable insertion sort: [x] moves behind
    [y] only when the comparison of [x] with [y] is positive.  For a
    consistent comparator every stable sort returns this array. *)
Fixpoint sort_insert (comparefn : Region -> Region -> number) (x : Region)
  (sorted : list Region) : list Region :=
  match sorted with
  | [] => [x]
  | y :: rest =>
      if num_lt (Fin false 0) (SortCompare comparefn x y)
      then y :: sort_insert comparefn x rest
      else x :: sorted
  end.

Definition Array_sort (comparefn : Region -> Region -> number) (a : list Region)
  : list Region :=
  foldr (sort_insert comparefn) [] a.

Definition pop (this : RegionCollection) (σ : store) : store :=
  alter Array_pop (regions this) σ.

Definition size (this : RegionCollection) (σ : store) : nat :=
  length (σ !!! regions this).

(** [array.at(index)]: a negative index counts from the end. *)
Definition at_ (this : RegionCollection) (index : Z) (σ : store) : option Region :=
  let a := σ !!! regions this in
  let k := if 0 <=? index then index else Z.of_nat (length a) + index in
  if k <? 0 then None else a !! Z.to_nat k.

Definition maxDensity (this : RegionCollection) (σ : store) : number :=
  Math_max (map (fun region => density region) (σ !!! regions this)).

Definition sortByRelativeDensity (this : RegionCollection) (σ : store) : store :=
  let maxDensity := maxDensity this σ in
  alter (Array_sort (fun a b =>
           num_sub (densityRelativeTo b maxDensity) (densityRelativeTo a maxDensity)))
        (regions this) σ.

(** [RegionCollection.from(data)]: [data.map] makes a new array. *)
Definition RegionCollection_from (data : list (gmap string jsval)) (σ : store)
  : RegionCollection * store :=
  let l := fresh (dom σ) in
  ({| regions := l |}, <[l := map (fun item => Region_from item) data]> σ).

(** The mutations of a collection. *)
Inductive mutation : Type := PopLast | SortByRelativeDensity.

Definition mutate (this : RegionCollection) (σ : store) (m : mutation) : store :=
  match m with
  | PopLast => pop this σ
  | SortByRelativeDensity => sortByRelativeDensity this σ
  end.

Definition mutations (this : RegionCollection) (ms : list mutation) (σ : store)
  : store :=
  foldl (mutate this) σ ms.

(** ** class RegionCollectionView *)

Record RegionCollectionView : Type := { collection : RegionCollection }.

Definition RegionCollectionView_from (collection : RegionCollection)
  : RegionCollectionView :=
  {| collection := collection |}.

Definition View_DEFAULT_OPTIONS : gmap string jsval :=
  <["relativeDensity" := VBool true]> ∅.

(** [console.log(text)]: one write. *)
Definition console_log (text : string) (console : list string) : list string :=
  console ++ [text].

(** src/Unit1/Task1/soc-opt-class.js *)
Module Unit1Task1.
Definition DEFAULT_OPTIONS_literal : gmap string jsval :=
  <["headers" := VBool true]> (<["eol" := VString LF]>
    (<["seprator" := VString ","]> ∅)).

Definition makeTable := makeTable "seprator".
Definition parse := parse "seprator".

(** [new CSV(csv, Object.assign(options || {}, CSV.DEFAULT_OPTIONS))] *)
Definition from (csv : string) (options : option positive) (h : heap)
  : CSV * heap :=
  let '(target, h) :=
    match options with
    | Some l => (l, h)
    | None => let l := fresh (dom h) in (l, <[l := ∅]> h)
    end in
  (new_CSV csv (Some target), Object_assign target DEFAULT_OPTIONS h).

Definition composeLine (this : RegionCollectionView) (σ : store)
  (region : Region) (options : gmap string jsval) : completion string :=
  f1 ← call_padEnd (city region) 18;
  let f2 := padStart (Number_toString (population region)) 10 in
  let f3 := padStart (Number_toString (area region)) 8 in
  let f4 := padStart (Number_toString (density region)) 8 in
  f5 ← call_padStart (country region) 18;
  let fragments := [f1; f2; f3; f4; f5] in
  let fragments :=
    if ToBoolean (prop options "relativeDensity") then
      let maxDensity := maxDensity (collection this) σ in
      let density := densityRelativeTo region maxDensity in
      fragments ++ [padStart (Number_toString density) 6]
    else fragments in
  mret (join "" fragments).

Definition print (this : RegionCollectionView) (options : option (gmap string jsval))
  (σ : store) (console : list string) : completion (list string) :=
  let options := default View_DEFAULT_OPTIONS options in
  lines ← mapM (fun region => composeLine this σ region options)
               (σ !!! regions (collection this));
  mret (console_log (join LF lines) console).
End Unit1Task1.

(** The refactored variant of the same file. *)
Module Refactored.
Definition DEFAULT_OPTIONS_literal : gmap string jsval :=
  <["headers" := VBool true]> (<["eol" := VString LF]>
    (<["separator" := VString ","]> ∅)).

Definition makeTable := makeTable "separator".
Definition parse := parse "separator".

(** [new CSV(csv, { ...CSV.DEFAULT_OPTIONS, ...options })] with
    [options = {}] when omitted: a new object, the caller's properties
    written after the defaults. *)
Definition from (csv : string) (options : option positive) (h : heap)
  : CSV * heap :=
  let given := match options with Some l => h !!! l | None => ∅ end in
  let l := fresh (dom h) in
  (new_CSV csv (Some l), <[l := given ∪ (h !!! DEFAULT_OPTIONS)]> h).

Definition makeDefaultFragments (region : Region) : completion (list string) :=
  f1 ← call_padEnd (city region) 18;
  let f2 := padStart (Number_toString (population region)) 10 in
  let f3 := padStart (Number_toString (area region)) 8 in
  let f4 := padStart (Number_toString (density region)) 8 in
  f5 ← call_padStart (country region) 18;
  mret [f1; f2; f3; f4; f5].

Definition makeRelativeDensityFragment (this : RegionCollectionView)
  (σ : store) (region : Region) : string :=
  let maxDensity := maxDensity (collection this) σ in
  let relativeDensity := densityRelativeTo region maxDensity in
  padStart (Number_toString relativeDensity) 6.

Definition composeLine (this : RegionCollectionView) (σ : store)
  (region : Region) (options : gmap string jsval) : completion string :=
  fragments ← makeDefaultFragments region;
  let fragments :=
    if ToBoolean (prop options "relativeDensity")
    then fragments ++ [makeRelativeDensityFragment this σ region]
    else fragments in
  mret (join "" fragments).

Definition print (this : RegionCollectionView) (options : option (gmap string jsval))
  (σ : store) (console : list string) : completion (list string) :=
  let options := default View_DEFAULT_OPTIONS options in
  lines ← mapM (fun region => composeLine this σ region options)
               (σ !!! regions (collection this));
  mret (console_log (join LF lines) console).
End Refactored.

(** ** Specification vocabulary *)

(** [x == y] on numbers: NaN equals nothing, the two zeros are equal. *)
Definition num_eq (x y : number) : bool :=
  match x, y with
  | NaN, _ | _, NaN => false
  | Inf s1, Inf s2 => eqb s1 s2
  | Fin s1 n1, Fin s2 n2 => signed s1 n1 =? signed s2 n2
  | _, _ => false
  end.


(** [m] is the maximum of [values] in the sense of [Math.max]: -Infinity
    for no value, NaN as soon as one value is NaN, and otherwise one of the
    values, none of them above it, [+0] counting as above [-0]. *)
Definition is_maximum (values : list number) (m : number) : Prop :=
  if decide (values = []) then m = Inf true
  else if decide (NaN ∈ values) then m = NaN
  else m ∈ values
       ∧ (∀ v, v ∈ values → num_lt m v = false)
       ∧ (m = Fin true 0 → Fin false 0 ∉ values).

(** The key of the sort: the density relative to [m]. *)
Definition relative_key (m : number) (r : Region) : number :=
  densityRelativeTo r m.

(** [a] may stand before [b] in descending order of the key: the key of
    [a] is not below the key of [b]. *)
Definition descending (m : number) (a b : Region) : Prop :=
  num_lt (relative_key m a) (relative_key m b) = false.

#[global] Instance descending_dec m a b : Decision (descending m a b).
Proof. unfold descending. apply _. Defined.

Definition is_string (v : jsval) : bool :=
  match v with
  | VString _ => true
  | _ => false
  end.

(** The line of a region as the format describes it: five fragments of
    fixed width and, when [relativeDensity] is on, the density relative to
    [m] in a sixth. *)
Definition expected_line (relativeDensity : bool) (m : number) (r : Region)
  : string :=
  padEnd (ToString (city r)) 18
  +:+ padStart (Number_toString (population r)) 10
  +:+ padStart (Number_toString (area r)) 8
  +:+ padStart (Number_toString (density r)) 8
  +:+ padStart (ToString (country r)) 18
  +:+ (if relativeDensity
       then padStart (Number_toString (densityRelativeTo r m)) 6
       else "").







(** [sep] occurs somewhere in [str]. *)
Definition occurs (sep str : string) : Prop :=
  ∃ pre post, str = pre +:+ sep +:+ post.

(** ** Sample data *)

(** The record of the unit test of [Region.from]. *)
Definition new_york : gmap string jsval :=
  <["city" := VString "New York"]> (<["population" := VString "8000000"]>
    (<["area" := VString "783.8"]> (<["density" := VString "10000"]>
      (<["country" := VString "USA"]> ∅)))).

(** A record whose population starts with a space. *)
Definition spaced : gmap string jsval :=
  <["city" := VString "X"]> (<["population" := VString " 12"]> ∅).

Definition sample_region (name : string) (d : Z) : Region :=
  {| city := VString name; population := int 1000; area := int 50;
     density := int d; country := VString "Country" |}.

(** The collection of the unit tests: densities 20, 30 and 25. *)
Definition sample_regions : list Region :=
  [sample_region "CityA" 20; sample_region "CityB" 30; sample_region "CityC" 25].

Definition sample_collection : RegionCollection := {| regions := 1%positive |}.
Definition sample_store : store := {[ 1%positive := sample_regions ]}.

(** A collection whose densities are 0 and -5, so that its maximum is 0. *)
Definition zero_store : store :=
  {[ 1%positive := [sample_region "Zero" 0; sample_region "Below" (-5)] ]}.

(** A collection of one region that has no country. *)
Definition spaced_store : store := {[ 1%positive := [Region_from spaced] ]}.

(** The call of the unit test "CSV.from allows overriding default options":
    [CSV.from('name;age\r\nAlice;30', { eol: '\r\n', separator: ';' })]. *)
Definition override_text : string := "name;age" +:+ CRLF +:+ "Alice;30".
Definition override_options : gmap string jsval :=
  <["eol" := VString CRLF]> (<["separator" := VString ";"]> ∅).
Definition override_heap (defaults : gmap string jsval) : heap :=
  <[2%positive := override_options]> {[ DEFAULT_OPTIONS := defaults ]}.

(** The texts and the options of the unit tests of the parser. *)
Definition people_text : string :=
  "name,age,city" +:+ LF +:+ "Alice,30,New York" +:+ LF +:+ "Bob,25,San Francisco".
Definition people_text_crlf : string :=
  "name;age;city" +:+ CRLF +:+ "Alice;30;New York" +:+ CRLF +:+ "Bob;25;San Francisco".
Definition crlf_options : gmap string jsval :=
  <["headers" := VBool true]> (<["eol" := VString CRLF]>
    (<["separator" := VString ";"]> ∅)).
Definition alice : gmap string jsval :=
  <["name" := VString "Alice"]> (<["age" := VString "30"]>
    (<["city" := VString "New York"]> ∅)).
Definition bob : gmap string jsval :=
  <["name" := VString "Bob"]> (<["age" := VString "25"]>
    (<["city" := VString "San Francisco"]> ∅)).

(** The data set embedded in the source and the script at its end:
    parse, build the collection, drop the last region, sort, print. *)
Definition data : string :=
  "city,population,area,density,country" +:+ LF +:+
  "  Shanghai,24256800,6340,3826,China" +:+ LF +:+
  "  Delhi,16787941,1484,11313,India" +:+ LF +:+
  "  Lagos,16060303,1171,13712,Nigeria" +:+ LF +:+
  "  Istanbul,14160467,5461,2593,Turkey" +:+ LF +:+
  "  Tokyo,13513734,2191,6168,Japan" +:+ LF +:+
  "  Sao Paulo,12038175,1521,7914,Brazil" +:+ LF +:+
  "  Mexico City,8874724,1486,5974,Mexico" +:+ LF +:+
  "  London,8673713,1572,5431,United Kingdom" +:+ LF +:+
  "  New York City,8537673,784,10892,United States" +:+ LF +:+
  "  Bangkok,8280925,1569,5279,Thailand".

Definition script
  (from : string → option positive → heap → CSV * heap)
  (parse : heap → CSV → parsed)
  (print : RegionCollectionView → option (gmap string jsval) → store →
           list string → completion (list string))
  (h : heap) : completion (list string) :=
  let '(c, h) := from data None h in
  let records :=
    match parse h c with
    | Records rs => rs
    | Table t => map (fun _ => ∅) t   (* a row has none of the five properties *)
    end in
  let '(collection, σ) := RegionCollection_from records ∅ in
  let σ := pop collection σ in
  let σ := sortByRelativeDensity collection σ in
  print (RegionCollectionView_from collection) None σ [].

(** The same script on any text. *)
Definition script_on
  (from : string → option positive → heap → CSV * heap)
  (parse : heap → CSV → parsed)
  (print : RegionCollectionView → option (gmap string jsval) → store →
           list string → completion (list string))
  (text : string) (h : heap) : completion (list string) :=
  let r := from text None h in
  let records :=
    match parse r.2 r.1 with
    | Records rs => rs
    | Table t => map (fun _ => ∅) t
    end in
  let c := RegionCollection_from records ∅ in
  let σ := pop c.1 c.2 in
  let σ := sortByRelativeDensity c.1 σ in
  print (RegionCollectionView_from c.1) None σ [].

Definition script_output : string :=
  "  Lagos             16060303    1171   13712           Nigeria   100" +:+ LF +:+
  "  Delhi             16787941    1484   11313             India    83" +:+ LF +:+
  "  New York City      8537673     784   10892     United States    79" +:+ LF +:+
  "  Sao Paulo         12038175    1521    7914            Brazil    58" +:+ LF +:+
  "  Tokyo             13513734    2191    6168             Japan    45" +:+ LF +:+
  "  Mexico City        8874724    1486    5974            Mexico    44" +:+ LF +:+
  "  London             8673713    1572    5431    United Kingdom    40" +:+ LF +:+
  "  Shanghai          24256800    6340    3826             China    28" +:+ LF +:+
  "  Istanbul          14160467    5461    2593            Turkey    19".

(** * Properties *)

(** ** Numbers *)

Ltac num_cases :=
  repeat match goal with
         | x : number |- _ => destruct x
         | b : bool |- _ => destruct b
         end;
  cbn [num_lt num_eq num_sub num_mul num_div Math_round signed andb negb xorb
       eqb int] in *;
  try discriminate; try reflexivity.

Lemma signed_int z : signed (z <? 0) (Z.abs_N z) = z.
Proof.
  unfold signed. destruct (Z.ltb_spec z 0); rewrite N2Z.inj_abs_N; lia.
Qed.

Lemma num_lt_irrefl x : num_lt x x = false.
Proof. num_cases; apply Z.ltb_irrefl. Qed.

Lemma num_lt_asym x y : num_lt x y = true → num_lt y x = false.
Proof. num_cases; rewrite ?Z.ltb_lt, ?Z.ltb_ge; lia. Qed.

Lemma num_lt_trans x y z : num_lt x y = true → num_lt y z = true → num_lt x z = true.
Proof. num_cases; rewrite ?Z.ltb_lt; lia. Qed.

(** Through a value that is a number, "not below" is transitive. *)
Lemma num_lt_through x y z :
  y ≠ NaN → num_lt x y = false → num_lt y z = false → num_lt x z = false.
Proof. num_cases; try congruence; rewrite ?Z.ltb_ge; lia. Qed.

(** The sort moves [x] behind [y] exactly when the key of [x] is below the
    key of [y]. *)
Lemma SortCompare_positive (key : Region → number) x y :
  num_lt (Fin false 0) (SortCompare (fun a b => num_sub (key b) (key a)) x y)
  = num_lt (key x) (key y).
Proof.
  unfold SortCompare. destruct (key x) as [|s1|s1 n1], (key y) as [|s2|s2 n2];
    cbn [num_sub num_lt]; try reflexivity;
    try (by destruct s1, s2); try (by destruct s1); try (by destruct s2).
  destruct (Z.eqb_spec (signed s2 n2 - signed s1 n1) 0) as [E|E].
  - cbn [num_lt]. replace (signed (s2 && negb s1) 0) with (signed false 0)
      by (by destruct (s2 && negb s1)).
    rewrite Z.ltb_irrefl. symmetry. apply Z.ltb_ge. lia.
  - unfold int. cbn [num_lt]. rewrite signed_int. cbn [signed Z.of_N].
    destruct (Z.ltb_spec (signed s1 n1) (signed s2 n2));
      [apply Z.ltb_lt|apply Z.ltb_ge]; lia.
Qed.


(** ** Math.max *)

Lemma max_step_spec h v :
  h ≠ NaN → v ≠ NaN →
  (max_step h v = h ∨ max_step h v = v)
  ∧ max_step h v ≠ NaN
  ∧ num_lt (max_step h v) h = false
  ∧ num_lt (max_step h v) v = false.
Proof.
  intros Hh Hv. unfold max_step.
  destruct h as [|sh|sh [|nh]], v as [|sv|sv [|nv]]; try congruence;
    destruct sh, sv; cbn;
    repeat match goal with
           | |- context [if ?b then _ else _] => destruct b eqn:?
           end; cbn; rewrite ?Z.ltb_irrefl;
    repeat split; auto; try discriminate; try (apply Z.ltb_ge; lia);
    try (apply Z.ltb_ge; apply Z.ltb_ge in Heqb; lia);
    try (apply Z.ltb_ge; apply Z.ltb_lt in Heqb; lia).
Qed.

Lemma max_step_zero h v :
  h ≠ NaN → v ≠ NaN →
  num_lt (Fin true 0) (max_step h v) = false →
  max_step h v ≠ Fin false 0 →
  h ≠ Fin false 0 ∧ v ≠ Fin false 0.
Proof.
  intros Hh Hv. unfold max_step.
  destruct h as [|sh|sh [|nh]], v as [|sv|sv [|nv]]; try congruence;
    destruct sh, sv; cbn; try discriminate; try congruence;
    repeat match goal with
           | |- context [if ?b then _ else _] => destruct b eqn:?
           end; cbn; try discriminate; try congruence;
    intros H1 H2; try (split; congruence);
    apply Z.ltb_ge in H1; lia.
Qed.

Lemma Math_max_from_NaN h values : NaN ∈ values → Math_max_from h values = NaN.
Proof.
  revert h. induction values as [|v values IH]; intros h Hin.
  - by apply not_elem_of_nil in Hin.
  - destruct v; [reflexivity| |]; cbn; apply IH;
      apply elem_of_cons in Hin as [|]; done.
Qed.

Lemma Math_max_from_spec values : ∀ h,
  h ≠ NaN → NaN ∉ values →
  let m := Math_max_from h values in
  m ≠ NaN
  ∧ (m = h ∨ m ∈ values)
  ∧ num_lt m h = false
  ∧ (∀ v, v ∈ values → num_lt m v = false)
  ∧ (m = Fin true 0 → h ≠ Fin false 0 ∧ Fin false 0 ∉ values).
Proof.
  induction values as [|v values IH]; intros h Hh Hnan; cbn zeta.
  - cbn. repeat split; auto using num_lt_irrefl.
    + intros v Hv. by apply not_elem_of_nil in Hv.
    + congruence.
    + apply not_elem_of_nil.
  - apply not_elem_of_cons in Hnan as [Hv Hnan].
    assert (Math_max_from h (v :: values) = Math_max_from (max_step h v) values) as ->
      by (destruct v; [congruence|reflexivity|reflexivity]).
    destruct (max_step_spec h v) as (Hor & Hn & Hlh & Hlv); [done..|].
    destruct (IH (max_step h v) Hn Hnan) as (Mn & Mor & Mh & Mall & Mz).
    split_and!.
    + done.
    + destruct Mor as [->|]; [|right; by apply elem_of_cons; right].
      destruct Hor as [->| ->]; [by left | right; apply elem_of_cons; by left].
    + by apply (num_lt_through _ (max_step h v)).
    + intros w Hw. apply elem_of_cons in Hw as [->|Hw]; [|by apply Mall].
      by apply (num_lt_through _ (max_step h v)).
    + intros E. destruct (Mz E) as [Z1 Z2].
      destruct (max_step_zero h v) as [Z3 Z4]; try done.
      { by rewrite <- E. }
      split; [done|]. rewrite not_elem_of_cons. split; [congruence|done].
Qed.

(** [Math_max] computes the maximum. *)
Lemma Math_max_is_maximum values : is_maximum values (Math_max values).
Proof.
  unfold is_maximum, Math_max. destruct (decide (values = [])) as [->|Hne]; [done|].
  destruct (decide (NaN ∈ values)) as [Hin|Hnin]; [by apply Math_max_from_NaN|].
  destruct (Math_max_from_spec values (Inf true)) as (Mn & Mor & _ & Mall & Mz);
    [done..|].
  split_and!; [|done|by intros E; destruct (Mz E)].
  destruct Mor as [E|]; [|done].
  destruct values as [|v values]; [done|].
  assert (v = Inf true) as ->.
  { pose proof (Mall v ltac:(by left)) as L. rewrite E in L.
    assert (v ≠ NaN) by (intros ->; apply Hnin; by left).
    destruct v as [|[]|[]]; done. }
  rewrite E. by left.
Qed.

Lemma is_maximum_unique values m1 m2 :
  is_maximum values m1 → is_maximum values m2 → m1 = m2.
Proof.
  unfold is_maximum. repeat case_decide; try congruence.
  intros (I1 & A1 & Z1) (I2 & A2 & Z2).
  pose proof (A1 _ I2) as L1. pose proof (A2 _ I1) as L2.
  assert (m1 ≠ NaN ∧ m2 ≠ NaN) as [N1 N2] by (split; congruence).
  destruct m1 as [|s1|s1 n1], m2 as [|s2|s2 n2]; try done.
  - destruct s1, s2; done.
  - destruct s1; done.
  - destruct s2; done.
  - cbn in L1, L2. apply Z.ltb_ge in L1, L2.
    assert (n1 = n2) as -> by (unfold signed in *; destruct s1, s2; lia).
    destruct (decide (s1 = s2)) as [->|Hs]; [done|].
    assert (n2 = 0%N) as -> by (unfold signed in *; destruct s1, s2; lia).
    destruct s1, s2; try done.
    + destruct (Z1 eq_refl). done.
    + destruct (Z2 eq_refl). done.
Qed.

Lemma is_maximum_Permutation values values' m :
  values ≡ₚ values' → is_maximum values m → is_maximum values' m.
Proof.
  intros P. unfold is_maximum.
  destruct (decide (values = [])) as [->|Hne].
  - apply Permutation_nil_l in P. by rewrite decide_True.
  - assert (values' ≠ []) as Hne'.
    { intros E. rewrite E in P. by apply Permutation_nil_r in P. }
    rewrite (decide_False (P := values' = [])) by done.
    destruct (decide (NaN ∈ values)) as [Hin|Hnin].
    + rewrite decide_True by (by rewrite <- P). done.
    + rewrite decide_False by (by rewrite <- P).
      intros (I & A & Zc). split_and!.
      * by rewrite <- P.
      * intros v Hv. apply A. by rewrite P.
      * intros E. rewrite <- P. by apply Zc.
Qed.

(** The maximum does not depend on the order of the values. *)
Lemma Math_max_Permutation values values' :
  values ≡ₚ values' → Math_max values = Math_max values'.
Proof.
  intros P. apply (is_maximum_unique values').
  - apply (is_maximum_Permutation values); [done|]. apply Math_max_is_maximum.
  - apply Math_max_is_maximum.
Qed.

(** ** Strings *)

Lemma append_cons c s t : String c s +:+ t = String c (s +:+ t).
Proof. reflexivity. Qed.

Lemma append_empty_l s : "" +:+ s = s.
Proof. reflexivity. Qed.

Lemma append_empty_r s : s +:+ "" = s.
Proof. induction s as [|c s IH]; [done|]. by rewrite append_cons, IH. Qed.

Lemma length_append s t :
  String.length (s +:+ t) = (String.length s + String.length t)%nat.
Proof. induction s as [|c s IH]; [done|]. rewrite append_cons. cbn. by rewrite IH. Qed.

Lemma length_spaces n : String.length (spaces n) = n.
Proof. induction n as [|n IH]; simpl; congruence. Qed.

(** [padStart] puts spaces before the string, [padEnd] after it, up to the
    width; a longer string is left as it is. *)
Lemma padStart_width s n :
  String.length (padStart s n) = (n `max` String.length s)%nat
  ∧ ∃ k, padStart s n = spaces k +:+ s.
Proof.
  unfold padStart. rewrite length_append, length_spaces. split; [lia|by eexists].
Qed.

Lemma padEnd_width s n :
  String.length (padEnd s n) = (n `max` String.length s)%nat
  ∧ ∃ k, padEnd s n = s +:+ spaces k.
Proof.
  unfold padEnd. rewrite length_append, length_spaces. split; [lia|by eexists].
Qed.

(** ** split and join *)

Lemma append_assoc s t u : (s +:+ t) +:+ u = s +:+ t +:+ u.
Proof. induction s as [|c s IH]; [done|]. by rewrite !append_cons, IH. Qed.

Lemma starts_with_prefix sep : ∀ str,
  starts_with sep str = true → ∃ rest, str = sep +:+ rest.
Proof.
  induction sep as [|a sep IH]; intros str H; [by exists str|].
  destruct str as [|b str]; [done|]. cbn in H.
  destruct (Ascii.eqb_spec a b) as [->|]; [|done].
  destruct (IH _ H) as [rest ->]. by exists rest.
Qed.

Lemma split_loop_skip sep cur rest : ∀ pre,
  split_loop sep (String.length pre) cur (pre +:+ rest) = split_loop sep 0 cur rest.
Proof. induction pre as [|c pre IH]; [done|]. by rewrite append_cons. Qed.

Lemma split_loop_cons sep : ∀ str skip cur,
  ∃ piece pieces, split_loop sep skip cur str = piece :: pieces.
Proof.
  induction str as [|c str IH]; intros skip cur; cbn; [by eexists _, _|].
  destruct skip; [|apply IH].
  destruct (starts_with _ _); [by eexists _, _|apply IH].
Qed.

(** Joining the pieces with the separator gives the text back. *)
Lemma join_split_loop a sep0 n : ∀ str cur,
  (String.length str ≤ n)%nat →
  join (String a sep0) (split_loop (String a sep0) 0 cur str) = cur +:+ str.
Proof.
  induction n as [|n IH]; intros [|c str] cur Hn; cbn [String.length] in Hn;
    try lia; try (cbn; by rewrite append_empty_r).
  cbn [split_loop]. destruct (starts_with _ _) eqn:E.
  - apply starts_with_prefix in E as [rest E]. rewrite append_cons in E.
    injection E as -> ->.
    cbn [String.length].
    replace (S (String.length sep0) - 1)%nat with (String.length sep0) by lia.
    rewrite split_loop_skip.
    destruct (split_loop_cons (String a sep0) rest 0 "") as (p & ps & Hp).
    pose proof (IH rest "" ltac:(rewrite length_append in Hn; lia)) as Hj.
    rewrite Hp in Hj |- *.
    change (join (String a sep0) (cur :: p :: ps))
      with (cur +:+ String a sep0 +:+ join (String a sep0) (p :: ps)).
    by rewrite Hj, append_empty_l, append_cons.
  - rewrite IH by lia. by rewrite append_assoc.
Qed.

Lemma join_split str sep :
  sep ≠ "" → join sep (split str (VString sep)) = str.
Proof.
  intros Hsep. destruct sep as [|a sep0]; [done|].
  unfold split. cbn [ToString String.eqb].
  by rewrite (join_split_loop a sep0 (String.length str)).
Qed.

(** ** parseInt *)











(** ** CSV: records *)

Lemma createRecord_nil row : createRecord [] row = ∅.
Proof. reflexivity. Qed.

(** One more header, one more property: its value is the field of the row
    at the position of the header. *)
Lemma createRecord_snoc headers header row :
  createRecord (headers ++ [header]) row
  = <[header := cell row (length headers)]> (createRecord headers row).
Proof.
  unfold createRecord, Object_fromEntries.
  rewrite imap_app, foldl_app. cbn. by rewrite Nat.add_0_r.
Qed.

Lemma createRecord_last_occurrence row headers : ∀ i header,
  headers !! i = Some header →
  (∀ j, (i < j)%nat → headers !! j ≠ Some header) →
  createRecord headers row !! header = Some (cell row i).
Proof.
  induction headers as [|h headers IH] using rev_ind; intros i header Hi Hlast.
  - by rewrite lookup_nil in Hi.
  - rewrite createRecord_snoc.
    destruct (decide (i = length headers)) as [->|Hne].
    + rewrite list_lookup_middle in Hi by done. injection Hi as ->.
      apply lookup_insert_eq.
    + assert (i < length headers)%nat as Hlt.
      { apply lookup_lt_Some in Hi. rewrite length_app in Hi. cbn in Hi. lia. }
      rewrite lookup_app_l in Hi by done.
      rewrite lookup_insert_ne.
      * apply IH; [done|]. intros j Hj Hj'.
        apply (Hlast j Hj). rewrite lookup_app_l; [done|]. by eapply lookup_lt_Some.
      * intros ->. apply (Hlast (length headers) Hlt).
        by rewrite list_lookup_middle.
Qed.

Lemma createRecord_beyond_row row headers : ∀ i header,
  headers !! i = Some header → (length row ≤ i)%nat →
  createRecord headers row !! header = Some VUndefined.
Proof.
  induction headers as [|h headers IH] using rev_ind; intros i header Hi Hlen.
  - by rewrite lookup_nil in Hi.
  - rewrite createRecord_snoc.
    assert (i ≤ length headers)%nat as Hle.
    { apply lookup_lt_Some in Hi. rewrite length_app in Hi. cbn in Hi. lia. }
    destruct (decide (h = header)) as [->|Hne].
    + rewrite lookup_insert_eq. unfold cell.
      rewrite lookup_ge_None_2 by lia. done.
    + rewrite lookup_insert_ne by done.
      destruct (decide (i = length headers)) as [->|Hi'].
      * rewrite list_lookup_middle in Hi by done. congruence.
      * apply (IH i); [|done]. rewrite lookup_app_l in Hi by lia. done.
Qed.

Lemma createRecord_take headers row :
  createRecord headers row = createRecord headers (take (length headers) row).
Proof.
  unfold createRecord. f_equal. apply imap_ext. intros i h Hi. cbn.
  unfold cell. rewrite lookup_take_lt; [done|]. by eapply lookup_lt_Some.
Qed.

Lemma createRecord_dom headers row :
  dom (createRecord headers row) = list_to_set headers.
Proof.
  induction headers as [|h headers IH] using rev_ind.
  - rewrite createRecord_nil. by rewrite dom_empty_L.
  - rewrite createRecord_snoc, dom_insert_L, IH, list_to_set_app_L. cbn.
    rewrite (right_id_L ∅ (∪)). apply (comm_L (∪)).
Qed.

(** C7. With the headers option on, [parse] returns the records of the
    rows after the first, each zipped by position with the first row: a
    header (at its last occurrence) names the field at its own position; a
    header beyond the end of a shorter row names [undefined]; the fields of
    a longer row beyond the headers are dropped.  A record is built for any
    two rows: there is no error to return. *)
Theorem createRecord_positional_zip key h this headers row :
  (ToBoolean (get h (options this) "headers") = true →
   parse key h this
   = Records match makeTable key h this with
             | [] => []
             | headers :: body => map (createRecord headers) body
             end)
  ∧ (∀ i header, headers !! i = Some header →
       (∀ j, (i < j)%nat → headers !! j ≠ Some header) →
       createRecord headers row !! header = Some (cell row i))
  ∧ (∀ i header, headers !! i = Some header → (length row ≤ i)%nat →
       createRecord headers row !! header = Some VUndefined)
  ∧ createRecord headers row = createRecord headers (take (length headers) row)
  ∧ dom (createRecord headers row) = list_to_set headers.
Proof.
  split_and!.
  - intros E. unfold parse. by rewrite E.
  - apply createRecord_last_occurrence.
  - apply createRecord_beyond_row.
  - apply createRecord_take.
  - apply createRecord_dom.
Qed.

(** ** CSV: the empty text *)

Lemma split_empty separator : split "" separator = [""] ∨ split "" separator = [].
Proof.
  unfold split. destruct separator; [by left| |].
  - destruct (String.eqb _ _); [by right|by left].
  - destruct (String.eqb _ _); [by right|by left].
Qed.

(** C8. The empty text, parsed with the headers option on, gives no record
    at all, whatever the two separators are; with the default options the
    table is the single row [[""]], which is taken as the header row. *)
Theorem parse_empty_text :
  (∀ key h this, csv this = "" →
     ToBoolean (get h (options this) "headers") = true →
     parse key h this = Records [])
  ∧ (∀ h, h !! DEFAULT_OPTIONS = Some Unit1Task1.DEFAULT_OPTIONS_literal →
       Unit1Task1.makeTable h (new_CSV "" None) = [[""]]
       ∧ Unit1Task1.parse h (new_CSV "" None) = Records [])
  ∧ (∀ h, h !! DEFAULT_OPTIONS = Some Refactored.DEFAULT_OPTIONS_literal →
       Refactored.makeTable h (new_CSV "" None) = [[""]]
       ∧ Refactored.parse h (new_CSV "" None) = Records []).
Proof.
  split_and!.
  - intros key h this Hcsv Hh. unfold parse, makeTable. rewrite Hh, Hcsv.
    by destruct (split_empty (get h (options this) "eol")) as [-> | ->].
  - intros h Hd.
    unfold Unit1Task1.parse, Unit1Task1.makeTable, parse, makeTable, get. cbn.
    by rewrite (lookup_total_correct _ _ _ Hd).
  - intros h Hd.
    unfold Refactored.parse, Refactored.makeTable, parse, makeTable, get. cbn.
    by rewrite (lookup_total_correct _ _ _ Hd).
Qed.

(** ** CSV.from *)

(** The refactored [from] makes a new bag in which a property comes from
    the caller when the caller gave it and from the defaults otherwise; no
    object that existed, the defaults among them, is changed; and [parse]
    splits the text on the [eol] and the [separator] of that bag. *)
Lemma Refactored_from_resolves text opts h :
  let given := match opts with Some l => h !!! l | None => ∅ end in
  let r := Refactored.from text opts h in
  csv r.1 = text
  ∧ (∀ key, get r.2 (options r.1) key
            = match given !! key with
              | Some v => v
              | None => get h DEFAULT_OPTIONS key
              end)
  ∧ (∀ l, l ∈ dom h → r.2 !! l = h !! l)
  ∧ Refactored.makeTable r.2 r.1
    = map (fun line => split line (get r.2 (options r.1) "separator"))
          (split text (get r.2 (options r.1) "eol")).
Proof.
  intros given r. split_and!; try done.
  - intros key. unfold r, Refactored.from, get, prop. cbn.
    rewrite lookup_total_insert_eq. fold given.
    rewrite lookup_union.
    by destruct (given !! key), ((h !!! DEFAULT_OPTIONS) !! key).
  - intros l Hl. unfold r, Refactored.from. cbn.
    rewrite lookup_insert_ne; [done|]. intros <-. by apply is_fresh in Hl.
Qed.

(** With the defaults as the class defines them, the bag holds the default
    of every option that the caller left out. *)
Lemma Refactored_from_defaults text opts h :
  h !! DEFAULT_OPTIONS = Some Refactored.DEFAULT_OPTIONS_literal →
  let given := match opts with Some l => h !!! l | None => ∅ end in
  let r := Refactored.from text opts h in
  (given !! "headers" = None → get r.2 (options r.1) "headers" = VBool true)
  ∧ (given !! "eol" = None
     → get r.2 (options r.1) "eol" = VString LF)
  ∧ (given !! "separator" = None
     → get r.2 (options r.1) "separator" = VString ",").
Proof.
  intros Hd given r.
  destruct (Refactored_from_resolves text opts h) as (_ & Hget & _).
  fold given r in Hget. unfold get at 2 in Hget.
  rewrite (lookup_total_correct _ _ _ Hd) in Hget.
  split_and!; intros E; rewrite Hget, E; reflexivity.
Qed.

(** In the first variant the defaults are written over the caller's bag:
    every property that the defaults have ends with the default value. *)
Lemma Unit1Task1_from_defaults_win text l h key v :
  l ∈ dom h → (h !!! DEFAULT_OPTIONS : gmap string jsval) !! key = Some v →
  let r := Unit1Task1.from text (Some l) h in
  options r.1 = l ∧ get r.2 l key = v.
Proof.
  intros Hl Hk r. split; [done|].
  unfold r, Unit1Task1.from, Object_assign, get, prop. cbn.
  apply elem_of_dom in Hl as [o Ho].
  rewrite lookup_total_alt, lookup_alter_eq, Ho. cbn.
  rewrite lookup_union, Hk. by destruct (o !! key).
Qed.

(** C2, first variant.  On the call of the unit test "CSV.from allows
    overriding default options" the first variant does not let the caller's
    values win: the [eol] of the resolved bag is the default, the field
    separator is read under the misspelt key [seprator] and is the default
    too, so the text is cut at the line feed only and not at [;]; and the
    caller's own bag has been written to.  The refactored variant, on the
    same call, cuts at the caller's separators. *)
Theorem Unit1Task1_from_defaults_override_caller :
  let h := override_heap Unit1Task1.DEFAULT_OPTIONS_literal in
  let r := Unit1Task1.from override_text (Some 2%positive) h in
  let h' := override_heap Refactored.DEFAULT_OPTIONS_literal in
  let r' := Refactored.from override_text (Some 2%positive) h' in
  get r.2 (options r.1) "eol" = VString LF
  ∧ get r.2 (options r.1) "seprator" = VString ","
  ∧ Unit1Task1.parse r.2 r.1
    = Records [ <["name;age" +:+ String "013" "" := VString "Alice;30"]> ∅ ]
  ∧ r.2 !! 2%positive ≠ h !! 2%positive
  ∧ r.2 !! DEFAULT_OPTIONS = h !! DEFAULT_OPTIONS
  ∧ Refactored.parse r'.2 r'.1
    = Records [ <["name" := VString "Alice"]> (<["age" := VString "30"]> ∅) ].
Proof. vm_compute. split_and!; try reflexivity. discriminate. Qed.

(** ** Region.from *)




(** ** Region.densityRelativeTo *)

Lemma densityRelativeTo_NaN_reference r : densityRelativeTo r NaN = NaN.
Proof. unfold densityRelativeTo. by destruct (num_mul _ _). Qed.

(** C4. A region of density 200 is at 50 relative to 400; and a region of
    positive density, relative to 0, is at +Infinity: the call returns, it
    has no fault to raise. *)
Theorem densityRelativeTo_reference_zero (r : Region) :
  (density r = int 200 → densityRelativeTo r (int 400) = int 50)
  ∧ (num_lt (int 0) (density r) = true → densityRelativeTo r (int 0) = Infinity).
Proof.
  unfold densityRelativeTo. split.
  - intros ->. reflexivity.
  - destruct (density r) as [|[]|[] n]; cbn; try discriminate; try reflexivity.
    + intros H. apply Z.ltb_lt in H. lia.
    + intros H. apply Z.ltb_lt in H.
      destruct (N.eqb_spec (n * 100) 0); [lia | reflexivity].
Qed.

Lemma densityRelativeTo_reference_zero_witness :
  let r := {| city := VString "City"; population := int 1000; area := int 100;
              density := int 200; country := VString "Country" |} in
  densityRelativeTo r (int 400) = int 50 ∧ densityRelativeTo r (int 0) = Infinity.
Proof.
  intros r. split.
  - apply (densityRelativeTo_reference_zero r). reflexivity.
  - apply (densityRelativeTo_reference_zero r). reflexivity.
Defined.

(** C10. A region of density zero, relative to zero, is at NaN (either
    zero, on either side). *)
Lemma densityRelativeTo_zero_zero r s s' :
  density r = Fin s 0 → densityRelativeTo r (Fin s' 0) = NaN.
Proof. unfold densityRelativeTo. intros ->. reflexivity. Qed.

(** ** Array.prototype.sort *)

Lemma sort_insert_Permutation comparefn x l :
  sort_insert comparefn x l ≡ₚ x :: l.
Proof.
  induction l as [|y l IH]; cbn [sort_insert]; [done|].
  destruct (num_lt (Fin false 0) (SortCompare comparefn x y)); [|done].
  rewrite IH. apply Permutation_swap.
Qed.

Lemma Array_sort_Permutation comparefn l : Array_sort comparefn l ≡ₚ l.
Proof.
  induction l as [|x l IH]; cbn; [done|].
  rewrite sort_insert_Permutation. by rewrite IH.
Qed.

Section sort_by_key.
Variable key : Region → number.

Let comparefn (a b : Region) : number := num_sub (key b) (key a).
Let R (a b : Region) : Prop := num_lt (key a) (key b) = false.

Lemma sort_insert_cons x y l :
  sort_insert comparefn x (y :: l)
  = if num_lt (key x) (key y) then y :: sort_insert comparefn x l else x :: y :: l.
Proof.
  cbn [sort_insert]. unfold comparefn. by rewrite (SortCompare_positive key).
Qed.



(** The keys of the elements of [L] can be compared consistently: none
    is NaN, or no two of them are apart. *)
Variable L : list Region.
Hypothesis coherent :
  (∀ a, a ∈ L → key a ≠ NaN)
  ∨ (∀ a b, a ∈ L → b ∈ L → num_lt (key a) (key b) = false).

Lemma not_below_trans a b c : a ∈ L → b ∈ L → c ∈ L → R a b → R b c → R a c.
Proof.
  intros Ha Hb Hc. destruct coherent as [Hn|Hall].
  - apply num_lt_through. by apply Hn.
  - intros _ _. by apply Hall.
Qed.

Lemma sort_insert_sorted x l :
  x ∈ L → l ⊆ L → StronglySorted R l → StronglySorted R (sort_insert comparefn x l).
Proof.
  intros Hx. induction l as [|y l IH]; intros Hl Hs.
  - cbn. repeat constructor.
  - rewrite sort_insert_cons. apply StronglySorted_inv in Hs as [Hs Hy].
    assert (y ∈ L) as HyL by (apply Hl; by left).
    assert (l ⊆ L) as HlL by (intros z Hz; apply Hl; by right).
    destruct (num_lt (key x) (key y)) eqn:E.
    + constructor; [by apply IH|].
      rewrite sort_insert_Permutation. constructor; [|done].
      by apply num_lt_asym.
    + constructor; [by constructor|]. constructor; [done|].
      rewrite Forall_forall in Hy |- *. intros z Hz.
      apply (not_below_trans x y z); auto.
Qed.

Lemma Array_sort_sorted l :
  l ⊆ L → StronglySorted R (Array_sort comparefn l).
Proof.
  induction l as [|x l IH]; intros Hl; cbn; [constructor|].
  apply sort_insert_sorted.
  - apply Hl. by left.
  - intros z Hz. apply Hl. right.
    by rewrite <- (Array_sort_Permutation comparefn l).
  - apply IH. intros z Hz. apply Hl. by right.
Qed.
End sort_by_key.

(** ** The keys of the sort *)

(** What the key of a density [d] can be, relative to a reference [m] that
    [d] does not exceed. *)
Lemma relative_key_cases m d :
  d ≠ NaN → num_lt m d = false →
  let key := Math_round (num_div (num_mul d (int 100)) m) in
  match m with
  | NaN => True
  | Inf _ => key = NaN ∨ ∃ s, key = Fin s 0
  | Fin s N0 => key = NaN ∨ key = Inf (negb s)
  | Fin _ (Npos _) => key ≠ NaN
  end.
Proof.
  intros Hd Hlt.
  destruct m as [|sm|sm [|pm]]; [done| | |];
    destruct d as [|sd|sd [|pd]]; try done; cbn in *;
    try (left; reflexivity);
    try (right; destruct sd, sm; by eexists);
    try (by destruct sd, sm).
  - right. by destruct sd, sm.
  - right. destruct sd, sm; try reflexivity; cbn in Hlt;
      try discriminate; apply Z.ltb_ge in Hlt; lia.
Qed.

Lemma relative_keys_coherent rs :
  let m := Math_max (map (fun region => density region) rs) in
  (∀ a, a ∈ rs → relative_key m a ≠ NaN)
  ∨ (∀ a b, a ∈ rs → b ∈ rs →
       num_lt (relative_key m a) (relative_key m b) = false).
Proof.
  intros m. pose proof (Math_max_is_maximum (map (fun region => density region) rs)) as M.
  fold m in M. unfold is_maximum in M.
  destruct (decide (map (fun region => density region) rs = [])) as [E|E].
  { apply map_eq_nil in E as ->. left. intros a Ha. by apply not_elem_of_nil in Ha. }
  destruct (decide (NaN ∈ map (fun region => density region) rs)) as [Hin|Hnin].
  { right. intros a b _ _. unfold relative_key. rewrite M.
    by rewrite densityRelativeTo_NaN_reference. }
  destruct M as (Mi & Mall & _).
  assert (∀ a, a ∈ rs → density a ≠ NaN ∧ num_lt m (density a) = false) as Hd.
  { intros a Ha. split.
    - intros Ea. apply Hnin. rewrite <- Ea. by apply (list_elem_of_fmap_2 density).
    - apply Mall. by apply (list_elem_of_fmap_2 density). }
  assert (∀ a, a ∈ rs →
            match m with
            | NaN => True
            | Inf _ => relative_key m a = NaN ∨ ∃ s, relative_key m a = Fin s 0
            | Fin s N0 => relative_key m a = NaN ∨ relative_key m a = Inf (negb s)
            | Fin _ (Npos _) => relative_key m a ≠ NaN
            end) as Hk.
  { intros a Ha. destruct (Hd a Ha). by apply relative_key_cases. }
  destruct m as [|sm|sm [|pm]].
  - exfalso. apply Hnin. done.
  - right. intros a b Ha Hb.
    destruct (Hk a Ha) as [->|[sa ->]], (Hk b Hb) as [->|[sb ->]]; try done.
    by destruct sa, sb.
  - right. intros a b Ha Hb.
    destruct (Hk a Ha) as [->| ->], (Hk b Hb) as [->| ->]; try done.
    by destruct sm.
  - left. done.
Qed.


(** ** RegionCollection *)

Section collection.
Variables (this : RegionCollection) (σ : store) (rs : list Region).
Hypothesis holds : σ !! regions this = Some rs.

Lemma elements_current : σ !!! regions this = rs.
Proof. by apply lookup_total_correct. Qed.

Lemma size_current : size this σ = length rs.
Proof. unfold size. by rewrite elements_current. Qed.

Lemma maxDensity_current : maxDensity this σ = Math_max (map (fun region => density region) rs).
Proof. unfold maxDensity. by rewrite elements_current. Qed.

Lemma pop_current : pop this σ = <[regions this := removelast rs]> σ.
Proof.
  unfold pop, Array_pop. apply map_eq. intros l.
  rewrite lookup_alter, lookup_insert. case_decide; [subst; by rewrite holds|done].
Qed.

Lemma sortByRelativeDensity_current :
  sortByRelativeDensity this σ
  = <[regions this :=
        Array_sort (fun a b => num_sub (relative_key (maxDensity this σ) b)
                                       (relative_key (maxDensity this σ) a)) rs]> σ.
Proof.
  unfold sortByRelativeDensity. apply map_eq. intros l.
  rewrite lookup_alter, lookup_insert. case_decide; [subst; by rewrite holds|done].
Qed.
End collection.

Lemma mutate_current this σ rs m :
  σ !! regions this = Some rs →
  ∃ rs', mutate this σ m !! regions this = Some rs' ∧ (length rs' ≤ length rs)%nat.
Proof.
  intros H. destruct m; cbn.
  - rewrite (pop_current _ _ rs H), lookup_insert_eq. eexists; split; [done|].
    clear H. induction rs as [|x [|y l] IH]; cbn in *; lia.
  - rewrite (sortByRelativeDensity_current _ _ rs H), lookup_insert_eq.
    eexists; split; [done|]. by rewrite Array_sort_Permutation.
Qed.

Lemma mutations_current this ms : ∀ σ rs,
  σ !! regions this = Some rs →
  ∃ rs', mutations this ms σ !! regions this = Some rs' ∧ (length rs' ≤ length rs)%nat.
Proof.
  induction ms as [|m ms IH]; intros σ rs H; cbn.
  - by exists rs.
  - destruct (mutate_current this σ rs m H) as (rs1 & H1 & L1).
    destruct (IH _ _ H1) as (rs2 & H2 & L2). exists rs2. split; [done|lia].
Qed.

(** Sorting does not change the maximum. *)
Lemma maxDensity_sortByRelativeDensity this σ rs :
  σ !! regions this = Some rs →
  maxDensity this (sortByRelativeDensity this σ) = maxDensity this σ.
Proof.
  intros H. rewrite (sortByRelativeDensity_current _ _ _ H).
  rewrite (maxDensity_current _ _ _ (lookup_insert_eq _ _ _)).
  rewrite (maxDensity_current _ _ _ H).
  apply Math_max_Permutation, Permutation_map, Array_sort_Permutation.
Qed.

(** C6. After any sequence of mutations the collection still holds an
    array, and [maxDensity] is the maximum of the densities it holds then:
    -Infinity when it is empty; the maximum of what remains when the last
    element, whatever density it had, has been removed. *)
Theorem maxDensity_reflects_current_elements this σ rs0 ms :
  σ !! regions this = Some rs0 →
  (∃ rs, mutations this ms σ !! regions this = Some rs
         ∧ is_maximum (map (fun region => density region) rs)
                      (maxDensity this (mutations this ms σ))
         ∧ (rs = [] → maxDensity this (mutations this ms σ) = Inf true))
  ∧ (∀ rs r, rs0 = rs ++ [r] →
       pop this σ !! regions this = Some rs
       ∧ is_maximum (map (fun region => density region) rs)
                    (maxDensity this (pop this σ))).
Proof.
  intros H. split.
  - destruct (mutations_current this ms σ rs0 H) as (rs & Hrs & _).
    exists rs. rewrite (maxDensity_current _ _ rs Hrs).
    split_and!; [done|apply Math_max_is_maximum|by intros ->].
  - intros rs r ->.
    assert (pop this σ !! regions this = Some rs) as Hp.
    { rewrite (pop_current _ _ _ H), lookup_insert_eq. by rewrite removelast_last. }
    split; [done|]. rewrite (maxDensity_current _ _ rs Hp). apply Math_max_is_maximum.
Qed.

(** C9. [pop] on an empty collection changes nothing; on a collection that
    holds [rs ++ [r]] it leaves exactly [rs], one element fewer, every
    remaining element where it was, and no other array is touched. *)
Theorem pop_removes_exactly_last this σ :
  (σ !! regions this = Some [] → pop this σ = σ ∧ size this (pop this σ) = 0%nat)
  ∧ (∀ rs r, σ !! regions this = Some (rs ++ [r]) →
       pop this σ = <[regions this := rs]> σ
       ∧ S (size this (pop this σ)) = size this σ
       ∧ ∀ i, (i < length rs)%nat →
              (pop this σ !!! regions this) !! i = (σ !!! regions this) !! i).
Proof.
  split.
  - intros H. rewrite (pop_current _ _ _ H). cbn.
    rewrite insert_id by done. split; [done|]. by rewrite (size_current _ _ _ H).
  - intros rs r H. rewrite (pop_current _ _ _ H), removelast_last.
    assert (<[regions this := rs]> σ !! regions this = Some rs) as Hp
      by apply lookup_insert_eq.
    split_and!; [done| |].
    + rewrite (size_current _ _ _ Hp), (size_current _ _ _ H), length_app. cbn. lia.
    + intros i Hi. rewrite (elements_current _ _ _ Hp), (elements_current _ _ _ H).
      by rewrite lookup_app_l.
Qed.

Section stable_sort.
Variable key : Region → number.
Variable L : list Region.
Hypothesis coherent :
  (∀ a, a ∈ L → key a ≠ NaN)
  ∨ (∀ a b, a ∈ L → b ∈ L → num_lt (key a) (key b) = false).

Let comparefn (a b : Region) : number := num_sub (key b) (key a).
Local Abbreviation R := (fun a b : Region => num_lt (key a) (key b) = false).
Local Abbreviation tie x :=
  (fun r : Region => num_lt (key x) (key r) = false ∧ num_lt (key r) (key x) = false).



End stable_sort.




(** ** The sort is determined *)


(** ** RegionCollectionView *)

Lemma mapM_Normal {A B} (f : A → completion B) (g : A → B) l :
  Forall (fun a => f a = Normal (g a)) l → mapM f l = Normal (map g l).
Proof.
  induction 1 as [|a l Ha _ IH]; [done|].
  cbn. rewrite Ha. cbn. rewrite IH. done.
Qed.

Lemma mapM_Throw {A B} (f : A → completion B) l :
  Exists (fun a => f a = Throw TypeError) l → mapM f l = Throw TypeError.
Proof.
  induction 1 as [a l Ha|a l _ IH]; cbn.
  - by rewrite Ha.
  - destruct (f a) as [b|[]]; [|done]. cbn. by rewrite IH.
Qed.

Lemma composeLine_variants this σ region options :
  Unit1Task1.composeLine this σ region options
  = Refactored.composeLine this σ region options.
Proof.
  unfold Unit1Task1.composeLine, Refactored.composeLine,
    Refactored.makeDefaultFragments, Refactored.makeRelativeDensityFragment.
  destruct (city region), (country region); try done.
Qed.

Lemma print_variants this options σ console :
  Unit1Task1.print this options σ console = Refactored.print this options σ console.
Proof.
  unfold Unit1Task1.print, Refactored.print. f_equal.
  induction (σ !!! regions (collection this)) as [|r l IH]; [done|].
  cbn. rewrite composeLine_variants. by rewrite IH.
Qed.

Lemma composeLine_text this σ region options :
  is_string (city region) = true → is_string (country region) = true →
  Refactored.composeLine this σ region options
  = Normal (expected_line (ToBoolean (prop options "relativeDensity"))
              (maxDensity (collection this) σ) region).
Proof.
  unfold Refactored.composeLine, Refactored.makeDefaultFragments,
    Refactored.makeRelativeDensityFragment, expected_line.
  destruct (city region), (country region); try done. intros _ _. cbn.
  destruct (ToBoolean _); cbn; [done|]. by rewrite append_empty_r.
Qed.

Lemma composeLine_throws this σ region options :
  is_string (city region) && is_string (country region) = false →
  Refactored.composeLine this σ region options = Throw TypeError.
Proof.
  unfold Refactored.composeLine, Refactored.makeDefaultFragments.
  by destruct (city region), (country region).
Qed.


(** A region whose city or country is not a string makes [print] throw, and
    nothing is written. *)
Lemma print_throws this options σ console rs :
  σ !! regions (collection this) = Some rs →
  Exists (fun r => is_string (city r) && is_string (country r) = false) rs →
  Refactored.print this options σ console = Throw TypeError.
Proof.
  intros H Hs. unfold Refactored.print. rewrite (elements_current _ _ _ H).
  rewrite mapM_Throw; [done|].
  eapply Exists_impl; [exact Hs|]. intros r Hr. by apply composeLine_throws.
Qed.

(** So a collection is rendered exactly when all its cities and countries
    are strings, and then as the format says. *)
Lemma print_Normal_inv this options σ console rs out :
  σ !! regions (collection this) = Some rs →
  Refactored.print this options σ console = Normal out →
  Forall (fun r => is_string (city r) = true ∧ is_string (country r) = true) rs.
Proof.
  intros H Hout.
  destruct (decide (Forall (fun r => is_string (city r) = true
                                     ∧ is_string (country r) = true) rs))
    as [|Hn]; [done|].
  apply not_Forall_Exists in Hn; [|apply _].
  rewrite (print_throws this options σ console rs H) in Hout; [done|].
  eapply Exists_impl; [exact Hn|]. cbn. intros r Hr.
  destruct (is_string (city r)), (is_string (country r)); try done.
  by destruct Hr.
Qed.

(** ** Zero relative to zero *)

(** C10. A region of density zero is at NaN relative to zero, not at
    +Infinity; so in a collection whose maximum density is zero its key is
    NaN and the fragment that shows it reads [NaN], padded to 6, in either
    variant of the view. *)
Theorem densityRelativeTo_zero_by_zero_is_NaN r s :
  density r = Fin s 0 →
  (∀ s', densityRelativeTo r (Fin s' 0) = NaN)
  ∧ (∀ this σ s', maxDensity (collection this) σ = Fin s' 0 →
       relative_key (maxDensity (collection this) σ) r = NaN
       ∧ Refactored.makeRelativeDensityFragment this σ r = "   NaN"
       ∧ (∀ opts, ToBoolean (prop opts "relativeDensity") = true →
            is_string (city r) = true → is_string (country r) = true →
            Unit1Task1.composeLine this σ r opts
            = Normal (padEnd (ToString (city r)) 18
                      +:+ padStart (Number_toString (population r)) 10
                      +:+ padStart (Number_toString (area r)) 8
                      +:+ padStart (Number_toString (density r)) 8
                      +:+ padStart (ToString (country r)) 18
                      +:+ "   NaN"))).
Proof.
  intros Hd. split.
  - intros s'. by apply (densityRelativeTo_zero_zero r s).
  - intros this σ s' Hm.
    assert (densityRelativeTo r (maxDensity (collection this) σ) = NaN) as E
      by (rewrite Hm; by apply (densityRelativeTo_zero_zero r s)).
    split_and!.
    + done.
    + unfold Refactored.makeRelativeDensityFragment. by rewrite E.
    + intros opts Hopt Hc Hk.
      rewrite composeLine_variants, composeLine_text by done.
      unfold expected_line. by rewrite Hopt, E.
Qed.

Lemma densityRelativeTo_zero_by_zero_is_NaN_witness :
  densityRelativeTo (sample_region "Zero" 0) (int 0) = NaN
  ∧ Refactored.makeRelativeDensityFragment
      (RegionCollectionView_from sample_collection) zero_store
      (sample_region "Zero" 0) = "   NaN".
Proof.
  destruct (densityRelativeTo_zero_by_zero_is_NaN (sample_region "Zero" 0) false eq_refl)
    as [H1 H2].
  split.
  - apply (H1 false).
  - apply (H2 (RegionCollectionView_from sample_collection) zero_store false).
    reflexivity.
Defined.

(** ** Witnesses on the sample data *)



Lemma maxDensity_reflects_current_elements_witness :
  ∃ rs, mutations sample_collection [PopLast; SortByRelativeDensity; PopLast]
          sample_store !! regions sample_collection = Some rs
        ∧ is_maximum (map (fun region => density region) rs)
            (maxDensity sample_collection
               (mutations sample_collection [PopLast; SortByRelativeDensity; PopLast]
                  sample_store)).
Proof.
  destruct (maxDensity_reflects_current_elements sample_collection sample_store
              sample_regions [PopLast; SortByRelativeDensity; PopLast] eq_refl)
    as [(rs & H1 & H2 & _) _].
  by exists rs.
Defined.

Lemma pop_removes_exactly_last_witness :
  pop sample_collection sample_store
  = <[regions sample_collection :=
        [sample_region "CityA" 20; sample_region "CityB" 30]]> sample_store.
Proof.
  destruct (pop_removes_exactly_last sample_collection sample_store) as [_ H].
  apply (H [sample_region "CityA" 20; sample_region "CityB" 30]
           (sample_region "CityC" 25) eq_refl).
Defined.

Lemma createRecord_positional_zip_witness :
  createRecord ["name"; "age"; "city"] ["Alice"] !! "name" = Some (VString "Alice")
  ∧ createRecord ["name"; "age"; "city"] ["Alice"] !! "city" = Some VUndefined.
Proof.
  destruct (createRecord_positional_zip "separator" ∅ (new_CSV "" None)
              ["name"; "age"; "city"] ["Alice"]) as (_ & H1 & H2 & _).
  split.
  - apply (H1 0%nat "name" eq_refl). intros [|[|[|j]]] Hj; (lia || discriminate).
  - apply (H2 2%nat "city" eq_refl). cbn. lia.
Defined.

Lemma parse_empty_text_witness :
  Unit1Task1.parse {[ DEFAULT_OPTIONS := Unit1Task1.DEFAULT_OPTIONS_literal ]}
    (new_CSV "" None) = Records [].
Proof.
  destruct parse_empty_text as (H & _ & _).
  apply (H "seprator" {[ DEFAULT_OPTIONS := Unit1Task1.DEFAULT_OPTIONS_literal ]}
           (new_CSV "" None)); reflexivity.
Defined.

(** ** The unit tests and the script *)

Example test_parse_with_headers :
  Unit1Task1.parse {[ DEFAULT_OPTIONS := Unit1Task1.DEFAULT_OPTIONS_literal ]}
    (new_CSV people_text None) = Records [alice; bob]
  ∧ Refactored.parse {[ DEFAULT_OPTIONS := Refactored.DEFAULT_OPTIONS_literal ]}
      (new_CSV people_text None) = Records [alice; bob].
Proof. by vm_compute. Qed.

Example test_parse_custom_separator_and_eol :
  Refactored.parse {[ 2%positive := crlf_options ]}
    (new_CSV people_text_crlf (Some 2%positive)) = Records [alice; bob].
Proof. by vm_compute. Qed.

(** The first variant reads the separator under [seprator]: with the
    options of that test it does not cut the rows into fields. *)
Example test_parse_custom_separator_first_variant :
  Unit1Task1.makeTable {[ 2%positive := crlf_options ]}
    (new_CSV people_text_crlf (Some 2%positive))
  = [["name;age;city"]; ["Alice;30;New York"]; ["Bob;25;San Francisco"]].
Proof. by vm_compute. Qed.

Example test_Region_from :
  Region_from new_york
  = {| city := VString "New York"; population := int 8000000; area := int 783;
       density := int 10000; country := VString "USA" |}.
Proof. reflexivity. Qed.

Example test_maxDensity : maxDensity sample_collection sample_store = int 30.
Proof. reflexivity. Qed.

Example test_sortByRelativeDensity :
  sortByRelativeDensity sample_collection sample_store !! 1%positive
  = Some [sample_region "CityB" 30; sample_region "CityC" 25; sample_region "CityA" 20].
Proof. by vm_compute. Qed.

Example test_at :
  at_ sample_collection 1 sample_store = Some (sample_region "CityB" 30)
  ∧ at_ sample_collection (-1) sample_store = Some (sample_region "CityC" 25)
  ∧ at_ sample_collection 3 sample_store = None
  ∧ at_ sample_collection (-4) sample_store = None.
Proof. by vm_compute. Qed.

Example test_script :
  script Unit1Task1.from Unit1Task1.parse Unit1Task1.print
    {[ DEFAULT_OPTIONS := Unit1Task1.DEFAULT_OPTIONS_literal ]}
  = Normal [script_output]
  ∧ script Refactored.from Refactored.parse Refactored.print
      {[ DEFAULT_OPTIONS := Refactored.DEFAULT_OPTIONS_literal ]}
    = Normal [script_output].
Proof. by vm_compute. Qed.

(** * Further properties *)

(** ** CSV: the table *)

Lemma map_join_split sep lines :
  sep ≠ "" → map (fun line => join sep (split line (VString sep))) lines = lines.
Proof.
  intros Hsep. induction lines as [|line lines IH]; [done|].
  cbn [map]. by rewrite join_split, IH.
Qed.

(** X1. The table loses nothing of the text: when the row and the field
    separators are non-empty strings, joining the fields of each row with
    the field separator and the rows with the row separator gives the text
    back. *)
Theorem makeTable_lossless key h this eol sep :
  get h (options this) "eol" = VString eol → eol ≠ "" →
  get h (options this) key = VString sep → sep ≠ "" →
  join eol (map (join sep) (makeTable key h this)) = csv this.
Proof.
  intros He Hne Hs Hns. unfold makeTable. rewrite He, Hs.
  rewrite map_map, (map_join_split sep) by done. by apply join_split.
Qed.

Lemma makeTable_lossless_witness :
  join CRLF (map (join ";")
    (Refactored.makeTable {[ 2%positive := crlf_options ]}
       (new_CSV people_text_crlf (Some 2%positive))))
  = people_text_crlf.
Proof.
  apply (makeTable_lossless "separator" {[ 2%positive := crlf_options ]}
           (new_CSV people_text_crlf (Some 2%positive)) CRLF ";");
    (reflexivity || discriminate).
Defined.

(** X2. With the headers option on, [parse] gives one record for every row
    after the first, never one for the header row, and the properties of
    each record are exactly the names in the header row; with the option
    off it gives the table itself. *)
Theorem parse_one_record_per_data_row key h this :
  (ToBoolean (get h (options this) "headers") = true →
   ∃ records,
     parse key h this = Records records
     ∧ length records
       = (length (split (csv this) (get h (options this) "eol")) - 1)%nat
     ∧ ∀ record, record ∈ records →
         ∃ headers, head (makeTable key h this) = Some headers
                    ∧ dom record = list_to_set headers)
  ∧ (ToBoolean (get h (options this) "headers") = false →
     parse key h this = Table (makeTable key h this)).
Proof.
  split; intros E; unfold parse; rewrite E; [|done].
  exists (withHeaders (makeTable key h this)). split; [done|]. unfold makeTable.
  destruct (split (csv this) (get h (options this) "eol")) as [|line lines];
    cbn [map withHeaders length].
  - split; [done|]. intros record Hr. by apply not_elem_of_nil in Hr.
  - split; [rewrite !length_map; lia|].
    intros record Hr. eexists. split; [done|].
    apply list_elem_of_fmap in Hr as (row & -> & _). apply createRecord_dom.
Qed.

Lemma parse_one_record_per_data_row_witness :
  ∃ records,
    Refactored.parse {[ 2%positive := crlf_options ]}
      (new_CSV people_text_crlf (Some 2%positive)) = Records records
    ∧ length records = 2%nat.
Proof.
  destruct (parse_one_record_per_data_row "separator" {[ 2%positive := crlf_options ]}
              (new_CSV people_text_crlf (Some 2%positive))) as [H _].
  destruct (H eq_refl) as (records & H1 & H2 & _).
  exists records. split; [exact H1|exact H2].
Defined.

Lemma starts_with_append sep x : starts_with sep (sep +:+ x) = true.
Proof.
  induction sep as [|a sep IH]; [done|].
  rewrite append_cons. cbn. by rewrite Ascii.eqb_refl.
Qed.

Lemma starts_with_longer sep suf rest :
  starts_with sep suf = true → starts_with sep (suf +:+ rest) = true.
Proof.
  intros [r ->]%starts_with_prefix. rewrite append_assoc. apply starts_with_append.
Qed.

Lemma append_snoc_inv c : ∀ pre cur suf,
  cur +:+ String c "" = pre +:+ suf → suf ≠ "" →
  ∃ suf0, suf = suf0 +:+ String c "" ∧ cur = pre +:+ suf0.
Proof.
  induction pre as [|a pre IH]; intros cur suf E Hsuf.
  - exists cur. by rewrite !append_empty_l in *.
  - rewrite append_cons in E. destruct cur as [|b cur].
    + rewrite append_empty_l in E. injection E as _ E.
      destruct pre; [by rewrite append_empty_l in E|done].
    + rewrite append_cons in E. injection E as -> E.
      destruct (IH _ _ E Hsuf) as (suf0 & -> & ->).
      exists suf0. by rewrite append_cons.
Qed.

(** No piece that [split] cuts holds a place where the separator starts. *)
Lemma split_loop_clean a sep0 n : ∀ str cur,
  (String.length str ≤ n)%nat →
  (∀ pre suf, cur = pre +:+ suf → suf ≠ "" →
              starts_with (String a sep0) (suf +:+ str) = false) →
  Forall (fun piece => ∀ pre suf, piece = pre +:+ suf → suf ≠ "" →
                                  starts_with (String a sep0) suf = false)
         (split_loop (String a sep0) 0 cur str).
Proof.
  induction n as [|n IH]; intros [|c str] cur Hn Hcur;
    cbn [String.length] in Hn; try lia.
  1,2: constructor; [|done]; intros pre suf E Hs;
       specialize (Hcur pre suf E Hs); by rewrite append_empty_r in Hcur.
  cbn [split_loop]. destruct (starts_with _ _) eqn:E.
  - constructor.
    + intros pre suf Ec Hs. specialize (Hcur pre suf Ec Hs).
      destruct (starts_with (String a sep0) suf) eqn:F; [|done].
      by rewrite (starts_with_longer _ _ _ F) in Hcur.
    + apply starts_with_prefix in E as [rest E]. rewrite append_cons in E.
      injection E as -> ->. cbn [String.length].
      replace (S (String.length sep0) - 1)%nat with (String.length sep0) by lia.
      rewrite split_loop_skip. apply IH.
      * rewrite length_append in Hn. lia.
      * intros pre suf Ee Hs. destruct pre, suf; done.
  - apply IH; [lia|]. intros pre suf Ec Hs.
    destruct (append_snoc_inv c pre cur suf Ec Hs) as (suf0 & -> & ->).
    rewrite append_assoc, append_cons, append_empty_l.
    destruct suf0 as [|b suf0]; [by rewrite append_empty_l|].
    by apply (Hcur pre (String b suf0)).
Qed.

Lemma split_no_separator str sep piece :
  sep ≠ "" → piece ∈ split str (VString sep) → ¬ occurs sep piece.
Proof.
  intros Hsep Hin (pre & post & E). destruct sep as [|a sep0]; [done|].
  unfold split in Hin. cbn [ToString String.eqb] in Hin.
  pose proof (split_loop_clean a sep0 (String.length str) str "" (le_n _)) as Hc.
  rewrite Forall_forall in Hc.
  assert (starts_with (String a sep0) (String a sep0 +:+ post) = false) as F.
  { apply (Hc ltac:(intros [] []; done) piece Hin pre); [done|].
    by rewrite append_cons. }
  by rewrite starts_with_append in F.
Qed.

(** X3. With non-empty separators the table has a first row and every row a
    first field; no field holds the field separator and no row, put
    together again, holds the row separator: a field that contains a
    separator cannot come out of [#makeTable]. *)
Theorem makeTable_fields_hold_no_separator key h this eol sep :
  get h (options this) "eol" = VString eol → eol ≠ "" →
  get h (options this) key = VString sep → sep ≠ "" →
  makeTable key h this ≠ []
  ∧ ∀ row, row ∈ makeTable key h this →
      row ≠ []
      ∧ ¬ occurs eol (join sep row)
      ∧ ∀ field, field ∈ row → ¬ occurs sep field.
Proof.
  intros He Hne Hs Hns. unfold makeTable. rewrite He, Hs. split.
  - destruct eol as [|a eol0]; [done|]. unfold split. cbn [ToString String.eqb].
    by destruct (split_loop_cons (String a eol0) (csv this) 0 "") as (p & ps & ->).
  - intros row (line & -> & Hline)%list_elem_of_fmap. split_and!.
    + destruct sep as [|a sep0]; [done|]. unfold split. cbn [ToString String.eqb].
      by destruct (split_loop_cons (String a sep0) line 0 "") as (p & ps & ->).
    + rewrite join_split by done. by apply (split_no_separator (csv this)).
    + intros field Hf. by apply (split_no_separator line).
Qed.

Lemma makeTable_fields_hold_no_separator_witness :
  Refactored.makeTable {[ 2%positive := crlf_options ]}
    (new_CSV people_text_crlf (Some 2%positive)) ≠ [].
Proof.
  apply (makeTable_fields_hold_no_separator "separator"
           {[ 2%positive := crlf_options ]}
           (new_CSV people_text_crlf (Some 2%positive)) CRLF ";");
    (reflexivity || discriminate).
Defined.

(** ** CSV.from and the shared bags *)

(** [parse] depends on the text and on the three options it reads. *)
Lemma parse_ext key h1 c1 h2 c2 :
  csv c1 = csv c2 →
  (∀ k, get h1 (options c1) k = get h2 (options c2) k) →
  parse key h1 c1 = parse key h2 c2.
Proof.
  intros Hc Hg. unfold parse, makeTable. by rewrite Hc, !Hg.
Qed.

Lemma Unit1Task1_from_None text h :
  DEFAULT_OPTIONS ∈ dom h →
  let r := Unit1Task1.from text None h in
  csv r.1 = text
  ∧ (∀ k, get r.2 (options r.1) k = get h DEFAULT_OPTIONS k)
  ∧ r.2 !! DEFAULT_OPTIONS = h !! DEFAULT_OPTIONS.
Proof.
  intros Hd.
  assert (fresh (dom h) ≠ DEFAULT_OPTIONS) as Hf
    by (intros E; rewrite <- E in Hd; by apply is_fresh in Hd).
  cbn zeta. unfold Unit1Task1.from, Object_assign. cbn [fst snd new_CSV default].
  rewrite lookup_total_insert_ne by done. split_and!; [done| |].
  - intros k. unfold get. cbn [options].
    rewrite lookup_total_alt, lookup_alter_eq, lookup_insert_eq. cbn.
    by rewrite (right_id_L ∅ (∪)).
  - by rewrite lookup_alter_ne, lookup_insert_ne.
Qed.

Lemma Refactored_from_None text h :
  DEFAULT_OPTIONS ∈ dom h →
  let r := Refactored.from text None h in
  csv r.1 = text
  ∧ (∀ k, get r.2 (options r.1) k = get h DEFAULT_OPTIONS k)
  ∧ r.2 !! DEFAULT_OPTIONS = h !! DEFAULT_OPTIONS.
Proof.
  intros Hd.
  assert (fresh (dom h) ≠ DEFAULT_OPTIONS) as Hf
    by (intros E; rewrite <- E in Hd; by apply is_fresh in Hd).
  cbn zeta. unfold Refactored.from. cbn [fst snd new_CSV default].
  split_and!; [done| |].
  - intros k. unfold get. cbn [options].
    rewrite lookup_total_insert_eq. by rewrite (left_id_L ∅ (∪)).
  - by rewrite lookup_insert_ne.
Qed.

(** X4. Called without options, [CSV.from] of either variant builds a
    parser that reads the class defaults as they are at that moment: it
    parses as [new CSV(text)] does, and the defaults are left as they
    were. *)
Theorem from_without_options_parses_as_default text h :
  DEFAULT_OPTIONS ∈ dom h →
  (let r := Unit1Task1.from text None h in
   Unit1Task1.parse r.2 r.1 = Unit1Task1.parse h (new_CSV text None)
   ∧ r.2 !! DEFAULT_OPTIONS = h !! DEFAULT_OPTIONS)
  ∧ (let r := Refactored.from text None h in
     Refactored.parse r.2 r.1 = Refactored.parse h (new_CSV text None)
     ∧ r.2 !! DEFAULT_OPTIONS = h !! DEFAULT_OPTIONS).
Proof.
  intros Hd.
  destruct (Unit1Task1_from_None text h Hd) as (U1 & U2 & U3).
  destruct (Refactored_from_None text h Hd) as (R1 & R2 & R3).
  split; (split; [by apply parse_ext|done]).
Qed.

Lemma from_without_options_parses_as_default_witness :
  Unit1Task1.parse
    (Unit1Task1.from people_text None
       {[ DEFAULT_OPTIONS := Unit1Task1.DEFAULT_OPTIONS_literal ]}).2
    (Unit1Task1.from people_text None
       {[ DEFAULT_OPTIONS := Unit1Task1.DEFAULT_OPTIONS_literal ]}).1
  = Unit1Task1.parse {[ DEFAULT_OPTIONS := Unit1Task1.DEFAULT_OPTIONS_literal ]}
      (new_CSV people_text None).
Proof.
  apply (from_without_options_parses_as_default people_text
           {[ DEFAULT_OPTIONS := Unit1Task1.DEFAULT_OPTIONS_literal ]}).
  rewrite dom_singleton_L. by apply elem_of_singleton.
Defined.

(** X5. The first variant resolves the options inside the caller's own
    bag: after [CSV.from(text, options)] that bag holds every default
    property, with the default's value, beside the properties it alone had;
    no other object is changed, and the defaults are not changed even when
    they are the bag that is passed. *)
Theorem Unit1Task1_from_writes_into_caller_bag text l h bag :
  h !! l = Some bag →
  let r := Unit1Task1.from text (Some l) h in
  options r.1 = l
  ∧ r.2 = <[l := (h !!! DEFAULT_OPTIONS) ∪ bag]> h
  ∧ (∀ key v, (h !!! DEFAULT_OPTIONS : gmap string jsval) !! key = Some v →
              get r.2 l key = v)
  ∧ (∀ key, (h !!! DEFAULT_OPTIONS : gmap string jsval) !! key = None →
            get r.2 l key = prop bag key)
  ∧ r.2 !! DEFAULT_OPTIONS = h !! DEFAULT_OPTIONS.
Proof.
  intros Hl r.
  assert (r.2 = <[l := (h !!! DEFAULT_OPTIONS) ∪ bag]> h) as E.
  { unfold r, Unit1Task1.from, Object_assign. cbn [snd]. apply map_eq. intros j.
    rewrite lookup_alter, lookup_insert. case_decide; [subst; by rewrite Hl|done]. }
  split_and!; [done|done| | |].
  - intros key v Hk. rewrite E. unfold get, prop.
    rewrite lookup_total_insert_eq, lookup_union, Hk. by destruct (bag !! key).
  - intros key Hk. rewrite E. unfold get, prop.
    rewrite lookup_total_insert_eq, lookup_union, Hk. by destruct (bag !! key).
  - rewrite E. destruct (decide (l = DEFAULT_OPTIONS)) as [->|Hne].
    + rewrite lookup_insert_eq, (lookup_total_correct _ _ _ Hl), Hl.
      by rewrite (idemp_L (∪)).
    + by rewrite lookup_insert_ne.
Qed.

Lemma Unit1Task1_from_writes_into_caller_bag_witness :
  get (Unit1Task1.from override_text (Some 2%positive)
         (override_heap Unit1Task1.DEFAULT_OPTIONS_literal)).2
      2%positive "headers" = VBool true.
Proof.
  destruct (Unit1Task1_from_writes_into_caller_bag override_text 2%positive
              (override_heap Unit1Task1.DEFAULT_OPTIONS_literal)
              override_options eq_refl) as (_ & _ & H & _).
  apply (H "headers" (VBool true)). reflexivity.
Defined.

(** X6. The refactored [from] does not interfere: it puts the resolved
    options in a new object, so every object that existed is as it was and
    every parser built before, whether on the defaults or on a bag of its
    own, parses as it did; and the new parser does not share the caller's
    bag. *)
Theorem Refactored_from_does_not_interfere text opts h :
  let r := Refactored.from text opts h in
  (options r.1 ∉ dom h)
  ∧ (∀ l, l ∈ dom h → r.2 !! l = h !! l)
  ∧ (∀ key c, options c ∈ dom h → parse key r.2 c = parse key h c).
Proof.
  intros r.
  assert (∀ l, l ∈ dom h → r.2 !! l = h !! l) as Hframe.
  { intros l Hl. unfold r, Refactored.from. cbn [snd].
    rewrite lookup_insert_ne; [done|]. intros <-. by apply is_fresh in Hl. }
  split_and!; [apply is_fresh|done|].
  intros key c Hc. apply parse_ext; [done|]. intros k. unfold get.
  by rewrite !lookup_total_alt, (Hframe _ Hc).
Qed.

Lemma Refactored_from_does_not_interfere_witness :
  parse "separator"
    (Refactored.from override_text (Some 2%positive)
       (override_heap Refactored.DEFAULT_OPTIONS_literal)).2
    (new_CSV people_text None)
  = parse "separator" (override_heap Refactored.DEFAULT_OPTIONS_literal)
      (new_CSV people_text None).
Proof.
  apply (Refactored_from_does_not_interfere override_text (Some 2%positive)
           (override_heap Refactored.DEFAULT_OPTIONS_literal)).
  by vm_compute.
Defined.

(** ** Relative density *)





(** ** Sorting and the maximum *)

(** An array already in descending order of the key is left as it is. *)
Lemma Array_sort_of_sorted (key : Region → number) l :
  StronglySorted (fun a b => num_lt (key a) (key b) = false) l →
  Array_sort (fun a b => num_sub (key b) (key a)) l = l.
Proof.
  induction 1 as [|x l Hs IH Hx]; [done|].
  cbn [Array_sort foldr]. fold (Array_sort (fun a b => num_sub (key b) (key a)) l).
  rewrite IH. destruct l as [|y l]; [done|].
  rewrite sort_insert_cons. apply Forall_cons_1 in Hx as [-> _]. done.
Qed.

(** X9. Sorting is idempotent: a collection that has been sorted is not
    changed by sorting it again. *)
Theorem sortByRelativeDensity_idempotent this σ rs :
  σ !! regions this = Some rs →
  sortByRelativeDensity this (sortByRelativeDensity this σ)
  = sortByRelativeDensity this σ.
Proof.
  intros H.
  pose proof (maxDensity_sortByRelativeDensity this σ rs H) as Hm.
  rewrite (sortByRelativeDensity_current _ _ _ H) in Hm |- *.
  rewrite (sortByRelativeDensity_current _ _ _ (lookup_insert_eq _ _ _)).
  rewrite Hm, insert_insert_eq. f_equal.
  apply (Array_sort_of_sorted (relative_key (maxDensity this σ))).
  apply (Array_sort_sorted (relative_key (maxDensity this σ)) rs); [|done].
  rewrite (maxDensity_current _ _ _ H). apply relative_keys_coherent.
Qed.

Lemma sortByRelativeDensity_idempotent_witness :
  sortByRelativeDensity sample_collection
    (sortByRelativeDensity sample_collection sample_store)
  = sortByRelativeDensity sample_collection sample_store.
Proof.
  apply (sortByRelativeDensity_idempotent sample_collection sample_store
           sample_regions eq_refl).
Defined.

Lemma removelast_subseteq {A} (l : list A) : removelast l ⊆ l.
Proof.
  induction l as [|x [|y l] IH]; [done|by apply list_subseteq_nil|].
  intros z Hz. change (removelast (x :: y :: l)) with (x :: removelast (y :: l)) in Hz.
  apply elem_of_cons in Hz as [->|Hz]; [by left|right; by apply IH].
Qed.

Lemma mutate_elements this σ rs m :
  σ !! regions this = Some rs →
  ∃ rs', mutate this σ m !! regions this = Some rs' ∧ rs' ⊆ rs.
Proof.
  intros H. destruct m; cbn.
  - rewrite (pop_current _ _ rs H), lookup_insert_eq. eexists; split; [done|].
    apply removelast_subseteq.
  - rewrite (sortByRelativeDensity_current _ _ rs H), lookup_insert_eq.
    eexists; split; [done|]. intros z. by rewrite Array_sort_Permutation.
Qed.

Lemma mutations_elements this ms : ∀ σ rs,
  σ !! regions this = Some rs →
  ∃ rs', mutations this ms σ !! regions this = Some rs' ∧ rs' ⊆ rs.
Proof.
  induction ms as [|m ms IH]; intros σ rs H; cbn.
  - by exists rs.
  - destruct (mutate_elements this σ rs m H) as (rs1 & H1 & L1).
    destruct (IH _ _ H1) as (rs2 & H2 & L2). exists rs2. split; [done|].
    intros z Hz. by apply L1, L2.
Qed.

(** The maximum of some of the values is not above the maximum of all. *)
Lemma Math_max_subseteq values' values :
  values' ⊆ values → num_lt (Math_max values) (Math_max values') = false.
Proof.
  intros Hsub.
  pose proof (Math_max_is_maximum values) as M.
  pose proof (Math_max_is_maximum values') as M'.
  unfold is_maximum in M, M'.
  destruct (decide (values' = [])) as [->|Hne'].
  { rewrite M'. by destruct (Math_max values) as [|[]|]. }
  destruct (decide (values = [])) as [->|Hne].
  { destruct values' as [|v ?]; [done|].
    exfalso. apply (not_elem_of_nil v), Hsub. by left. }
  destruct (decide (NaN ∈ values)) as [|Hn]; [by rewrite M|].
  destruct (decide (NaN ∈ values')) as [Hin|]; [by apply Hsub in Hin|].
  destruct M as (_ & Mall & _), M' as (Min & _). by apply Mall, Hsub.
Qed.

(** X10. Sorting leaves [maxDensity()] as it was, and no sequence of
    removals and sorts raises it: the maximum afterwards is never above the
    maximum before. *)
Theorem maxDensity_never_rises this σ rs ms :
  σ !! regions this = Some rs →
  maxDensity this (sortByRelativeDensity this σ) = maxDensity this σ
  ∧ num_lt (maxDensity this σ) (maxDensity this (mutations this ms σ)) = false.
Proof.
  intros H. split; [by apply (maxDensity_sortByRelativeDensity _ _ rs)|].
  destruct (mutations_elements this ms σ rs H) as (rs' & H' & Hsub).
  rewrite (maxDensity_current _ _ _ H), (maxDensity_current _ _ _ H').
  apply Math_max_subseteq. intros v (x & -> & Hx)%list_elem_of_fmap.
  by apply (list_elem_of_fmap_2 density), Hsub.
Qed.

Lemma maxDensity_never_rises_witness :
  num_lt (maxDensity sample_collection sample_store)
    (maxDensity sample_collection
       (mutations sample_collection [SortByRelativeDensity; PopLast; PopLast]
          sample_store)) = false.
Proof.
  apply (maxDensity_never_rises sample_collection sample_store sample_regions
           [SortByRelativeDensity; PopLast; PopLast] eq_refl).
Defined.

(** ** RegionCollection: size, at, from *)

(** X11. [at(index)] counts from the start for an index from 0 and from
    the end for a negative one: within the array, [index] and
    [index - size] name the same region, [-1] the last; outside it, on
    either side and on an empty collection, the result is undefined. *)
Theorem at_relative_index this σ rs :
  σ !! regions this = Some rs →
  (∀ i, (i < length rs)%nat →
     at_ this (Z.of_nat i) σ = rs !! i
     ∧ at_ this (Z.of_nat i - Z.of_nat (length rs)) σ = rs !! i)
  ∧ (∀ index, index < - Z.of_nat (length rs) ∨ Z.of_nat (length rs) ≤ index →
       at_ this index σ = None)
  ∧ at_ this (-1) σ = last rs.
Proof.
  intros H. unfold at_. rewrite (elements_current _ _ _ H). split_and!.
  - intros i Hi. split.
    + rewrite (proj2 (Z.leb_le _ _)) by lia.
      rewrite (proj2 (Z.ltb_ge _ _)) by lia. by rewrite Nat2Z.id.
    + rewrite (proj2 (Z.leb_gt _ _)) by lia.
      rewrite (proj2 (Z.ltb_ge _ _)) by lia. f_equal. lia.
  - intros index [Hlo|Hhi].
    + rewrite (proj2 (Z.leb_gt _ _)) by lia.
      by rewrite (proj2 (Z.ltb_lt _ _)) by lia.
    + rewrite (proj2 (Z.leb_le _ _)) by lia.
      rewrite (proj2 (Z.ltb_ge _ _)) by lia. apply lookup_ge_None. lia.
  - rewrite last_lookup. destruct rs as [|r rs]; [done|].
    change (0 <=? -1) with false. cbn [length].
    rewrite (proj2 (Z.ltb_ge _ _)) by lia. f_equal. lia.
Qed.

Lemma at_relative_index_witness :
  at_ sample_collection 1 sample_store = Some (sample_region "CityB" 30)
  ∧ at_ sample_collection (-2) sample_store = Some (sample_region "CityB" 30)
  ∧ at_ sample_collection 3 sample_store = None.
Proof.
  destruct (at_relative_index sample_collection sample_store sample_regions eq_refl)
    as (H1 & H2 & _).
  destruct (H1 1%nat) as [Ha Hb]; [cbn; lia|].
  split_and!; [exact Ha|exact Hb|]. apply H2. cbn. lia.
Defined.

(** X12. [RegionCollection.from(data)] puts the regions in an array of its
    own: the arrays that existed are as they were, the size of the new
    collection is the number of items, and the region at [i] is [Region.from]
    of the item at [i]. *)
Theorem RegionCollection_from_new_array data σ :
  let r := RegionCollection_from data σ in
  (regions r.1 ∉ dom σ)
  ∧ (∀ l, l ∈ dom σ → r.2 !! l = σ !! l)
  ∧ size r.1 r.2 = length data
  ∧ ∀ i item, data !! i = Some item →
      at_ r.1 (Z.of_nat i) r.2 = Some (Region_from item).
Proof.
  intros r.
  assert (r.2 !! regions r.1 = Some (map (fun item => Region_from item) data)) as H
    by apply lookup_insert_eq.
  split_and!.
  - apply is_fresh.
  - intros l Hl. unfold r, RegionCollection_from. cbn [snd].
    rewrite lookup_insert_ne; [done|]. intros <-. by apply is_fresh in Hl.
  - by rewrite (size_current _ _ _ H), length_map.
  - intros i item Hi. unfold at_. rewrite (elements_current _ _ _ H).
    rewrite (proj2 (Z.leb_le _ _)) by lia.
    rewrite (proj2 (Z.ltb_ge _ _)) by lia. rewrite Nat2Z.id.
    change (map (fun item => Region_from item) data) with (Region_from <$> data).
    by rewrite list_lookup_fmap, Hi.
Qed.

Lemma RegionCollection_from_new_array_witness :
  at_ (RegionCollection_from [new_york] sample_store).1 0
      (RegionCollection_from [new_york] sample_store).2
  = Some (Region_from new_york).
Proof.
  destruct (RegionCollection_from_new_array [new_york] sample_store)
    as (_ & _ & _ & H).
  apply (H 0%nat new_york eq_refl).
Defined.

(** ** Rendering: faults and widths *)

(** X13. [print] throws a TypeError exactly when some region of the
    collection has a city or a country that is not a string; this holds for
    both variants of the view, and a call that throws has written
    nothing. *)
Theorem print_throws_exactly_without_text this options σ console rs :
  σ !! regions (collection this) = Some rs →
  (Exists (fun r => is_string (city r) && is_string (country r) = false) rs
   ↔ Unit1Task1.print this options σ console = Throw TypeError)
  ∧ (Exists (fun r => is_string (city r) && is_string (country r) = false) rs
     ↔ Refactored.print this options σ console = Throw TypeError).
Proof.
  intros H. rewrite print_variants.
  assert (Exists (fun r => is_string (city r) && is_string (country r) = false) rs
          ↔ Refactored.print this options σ console = Throw TypeError) as E;
    [|by split].
  split; [by apply print_throws|]. intros Ht.
  destruct (decide (Exists
    (fun r => is_string (city r) && is_string (country r) = false) rs))
    as [|Hn]; [done|exfalso].
  apply not_Exists_Forall in Hn; [|apply _].
  unfold Refactored.print in Ht. rewrite (elements_current _ _ _ H) in Ht.
  erewrite mapM_Normal in Ht; [done|].
  eapply Forall_impl; [exact Hn|]. cbn. intros r Hr.
  apply composeLine_text;
    destruct (is_string (city r)), (is_string (country r)); done.
Qed.

Lemma print_throws_exactly_without_text_witness :
  Refactored.print (RegionCollectionView_from sample_collection) None
    spaced_store []
  = Throw TypeError.
Proof.
  apply (print_throws_exactly_without_text
           (RegionCollectionView_from sample_collection) None
           spaced_store [] [Region_from spaced] eq_refl).
  constructor. reflexivity.
Defined.

(** X14. A data row too short to reach the city or the country column, once
    parsed into a record and mapped to a region, makes the rendering of any
    collection built from data that holds it throw: the missing field is
    [undefined], and [padEnd]/[padStart] is called on it. *)
Theorem short_row_makes_print_throw headers row i data σ options console :
  headers !! i = Some "city" ∨ headers !! i = Some "country" →
  (length row ≤ i)%nat →
  createRecord headers row ∈ data →
  let r := RegionCollection_from data σ in
  Unit1Task1.print (RegionCollectionView_from r.1) options r.2 console
    = Throw TypeError
  ∧ Refactored.print (RegionCollectionView_from r.1) options r.2 console
    = Throw TypeError.
Proof.
  intros Hh Hlen Hin r. rewrite print_variants.
  assert (Refactored.print (RegionCollectionView_from r.1) options r.2 console
          = Throw TypeError) as E; [|by split].
  apply (print_throws _ _ _ _ (map (fun item => Region_from item) data));
    [apply lookup_insert_eq|].
  apply Exists_exists. exists (Region_from (createRecord headers row)). split.
  - by apply (list_elem_of_fmap_2 Region_from).
  - unfold Region_from, prop. cbn [city country].
    destruct Hh as [Hh|Hh];
      rewrite (createRecord_beyond_row row headers i _ Hh Hlen); cbn;
      [done|apply andb_false_r].
Qed.

Lemma short_row_makes_print_throw_witness :
  Refactored.print
    (RegionCollectionView_from
       (RegionCollection_from
          [createRecord ["city"; "density"; "country"] ["Lagos"; "13712"]] ∅).1)
    None
    (RegionCollection_from
       [createRecord ["city"; "density"; "country"] ["Lagos"; "13712"]] ∅).2 []
  = Throw TypeError.
Proof.
  apply (short_row_makes_print_throw ["city"; "density"; "country"]
           ["Lagos"; "13712"] 2%nat
           [createRecord ["city"; "density"; "country"] ["Lagos"; "13712"]]
           ∅ None []).
  - right. reflexivity.
  - cbn. lia.
  - by left.
Defined.

(** X15. A line is never shorter than the sum of the widths of its
    fragments, 62 code units and 68 with the relative density, and is
    exactly that long when every field fits its width: each fragment is its
    width or, if the text is longer, the text. *)
Theorem composeLine_width this σ region options line :
  Refactored.composeLine this σ region options = Normal line →
  let relativeDensity := ToBoolean (prop options "relativeDensity") in
  let key := Number_toString (densityRelativeTo region (maxDensity (collection this) σ)) in
  Unit1Task1.composeLine this σ region options = Normal line
  ∧ String.length line
    = (18 `max` String.length (ToString (city region))
       + 10 `max` String.length (Number_toString (population region))
       + 8 `max` String.length (Number_toString (area region))
       + 8 `max` String.length (Number_toString (density region))
       + 18 `max` String.length (ToString (country region))
       + (if relativeDensity then 6 `max` String.length key else 0))%nat
  ∧ ((if relativeDensity then 68 else 62) ≤ String.length line)%nat.
Proof.
  intros Hl rd key. rewrite composeLine_variants. split; [done|].
  assert (is_string (city region) && is_string (country region) = true) as Hs.
  { destruct (is_string (city region) && is_string (country region)) eqn:E; [done|].
    by rewrite composeLine_throws in Hl. }
  apply andb_true_iff in Hs as [Hc Hk].
  rewrite composeLine_text in Hl by done. injection Hl as <-.
  unfold expected_line. fold rd key.
  rewrite !length_append.
  rewrite (proj1 (padEnd_width _ _)), !(proj1 (padStart_width _ _)).
  destruct rd;
    [rewrite (proj1 (padStart_width _ _))|cbn [String.length]]; lia.
Qed.

Lemma composeLine_width_witness :
  ∃ line,
    Unit1Task1.composeLine (RegionCollectionView_from sample_collection)
      sample_store (sample_region "CityA" 20) View_DEFAULT_OPTIONS = Normal line
    ∧ (68 ≤ String.length line)%nat.
Proof.
  eexists.
  destruct (composeLine_width (RegionCollectionView_from sample_collection)
              sample_store (sample_region "CityA" 20) View_DEFAULT_OPTIONS _ eq_refl)
    as (H1 & _ & H2).
  split; [exact H1|exact H2].
Defined.

(** ** Printing and parsing numbers *)




(** ** From a row to a region *)

Lemma createRecord_absent headers row name :
  name ∉ headers → createRecord headers row !! name = None.
Proof.
  intros Hn. apply not_elem_of_dom. rewrite createRecord_dom.
  by rewrite elem_of_list_to_set.
Qed.

(** X18. A column reaches the attribute of its name whatever its position:
    in the region made from the record of a row, each of the five
    attributes is the field of the row under the header of that name (the
    last such header), read with [parseInt] for the three numeric ones; an
    attribute whose name is not among the headers is [undefined], or NaN
    for a numeric one. *)
Theorem Region_from_record_by_column headers row :
  let region := Region_from (createRecord headers row) in
  (∀ i name, headers !! i = Some name →
     (∀ j, (i < j)%nat → headers !! j ≠ Some name) →
     (name = "city" → city region = cell row i)
     ∧ (name = "population" → population region = parseInt (cell row i))
     ∧ (name = "area" → area region = parseInt (cell row i))
     ∧ (name = "density" → density region = parseInt (cell row i))
     ∧ (name = "country" → country region = cell row i))
  ∧ ("city" ∉ headers → city region = VUndefined)
  ∧ ("population" ∉ headers → population region = NaN)
  ∧ ("area" ∉ headers → area region = NaN)
  ∧ ("density" ∉ headers → density region = NaN)
  ∧ ("country" ∉ headers → country region = VUndefined).
Proof.
  intros region. unfold region, Region_from, prop. cbn [city population area density country].
  split_and!.
  - intros i name Hi Hlast.
    pose proof (createRecord_last_occurrence row headers i name Hi Hlast) as E.
    split_and!; intros ->; by rewrite E.
  - intros Hn. by rewrite createRecord_absent.
  - intros Hn. by rewrite createRecord_absent.
  - intros Hn. by rewrite createRecord_absent.
  - intros Hn. by rewrite createRecord_absent.
  - intros Hn. by rewrite createRecord_absent.
Qed.

Lemma Region_from_record_by_column_witness :
  density (Region_from (createRecord ["country"; "density"] ["Japan"; "6168"]))
  = parseInt (VString "6168").
Proof.
  destruct (Region_from_record_by_column ["country"; "density"] ["Japan"; "6168"])
    as [H _].
  destruct (H 1%nat "density" eq_refl) as (_ & _ & _ & Hd & _).
  - intros [|[|j]] Hj; (lia || discriminate).
  - apply Hd. reflexivity.
Defined.

(** ** The two variants *)

(** [parse] reads three options and nothing else. *)
Lemma parse_reads_three_options key h1 c1 h2 c2 :
  csv c1 = csv c2 →
  get h1 (options c1) "eol" = get h2 (options c2) "eol" →
  get h1 (options c1) key = get h2 (options c2) key →
  get h1 (options c1) "headers" = get h2 (options c2) "headers" →
  parse key h1 c1 = parse key h2 c2.
Proof.
  intros Hc He Hk Hh. unfold parse, makeTable. by rewrite Hc, He, Hk, Hh.
Qed.

(** X19. In the first variant, [parse] never reads the property
    [separator]: the field separator comes from [seprator].  So for a
    parser built with [new CSV(text, options)] on a bag that names the
    separator as documented, every row of the table is one field, the whole
    row, and the value given for [separator] changes nothing. *)
Theorem Unit1Task1_separator_option_is_not_read h this bag :
  h !! options this = Some bag →
  bag !! "seprator" = None →
  Unit1Task1.makeTable h this
  = map (fun line => [line]) (split (csv this) (get h (options this) "eol"))
  ∧ ∀ v, Unit1Task1.parse (<[options this := <["separator" := v]> bag]> h) this
         = Unit1Task1.parse h this.
Proof.
  intros Hb Hs. split.
  - assert (get h (options this) "seprator" = VUndefined) as E
      by (unfold get, prop; by rewrite (lookup_total_correct _ _ _ Hb), Hs).
    unfold Unit1Task1.makeTable, makeTable. by rewrite E.
  - intros v. apply parse_reads_three_options; [done|..];
      unfold get, prop;
      rewrite lookup_total_insert_eq, (lookup_total_correct _ _ _ Hb);
      by rewrite lookup_insert_ne.
Qed.

Lemma Unit1Task1_separator_option_is_not_read_witness :
  let h : heap := {[ 2%positive := crlf_options ]} in
  let this := new_CSV people_text_crlf (Some 2%positive) in
  Unit1Task1.makeTable h this
  = map (fun line => [line]) (split (csv this) (get h (options this) "eol")).
Proof.
  intros h this.
  apply (Unit1Task1_separator_option_is_not_read h this crlf_options).
  - apply lookup_singleton_eq.
  - reflexivity.
Defined.

(** X20. The refactoring keeps the behaviour of the script: on any text,
    each variant starting from its own defaults, the two scripts (parse,
    build the collection, drop the last region, sort, print) end with the
    same console or the same fault. *)
Theorem script_variants_agree text h1 h2 :
  h1 !! DEFAULT_OPTIONS = Some Unit1Task1.DEFAULT_OPTIONS_literal →
  h2 !! DEFAULT_OPTIONS = Some Refactored.DEFAULT_OPTIONS_literal →
  script_on Unit1Task1.from Unit1Task1.parse Unit1Task1.print text h1
  = script_on Refactored.from Refactored.parse Refactored.print text h2.
Proof.
  intros H1 H2. unfold script_on.
  destruct (Unit1Task1_from_None text h1) as (U1 & U2 & _);
    [by apply elem_of_dom; eexists|].
  destruct (Refactored_from_None text h2) as (R1 & R2 & _);
    [by apply elem_of_dom; eexists|].
  cbn zeta in U1, U2, R1, R2.
  assert (Unit1Task1.parse (Unit1Task1.from text None h1).2
            (Unit1Task1.from text None h1).1
          = Refactored.parse (Refactored.from text None h2).2
              (Refactored.from text None h2).1) as ->.
  { unfold Unit1Task1.parse, Refactored.parse, parse, makeTable.
    rewrite U1, R1, !U2, !R2. unfold get.
    by rewrite (lookup_total_correct _ _ _ H1), (lookup_total_correct _ _ _ H2). }
  apply print_variants.
Qed.

Lemma script_variants_agree_witness :
  script_on Unit1Task1.from Unit1Task1.parse Unit1Task1.print people_text
    {[ DEFAULT_OPTIONS := Unit1Task1.DEFAULT_OPTIONS_literal ]}
  = script_on Refactored.from Refactored.parse Refactored.print people_text
      {[ DEFAULT_OPTIONS := Refactored.DEFAULT_OPTIONS_literal ]}.
Proof.
  apply (script_variants_agree people_text
           {[ DEFAULT_OPTIONS := Unit1Task1.DEFAULT_OPTIONS_literal ]}
           {[ DEFAULT_OPTIONS := Refactored.DEFAULT_OPTIONS_literal ]});
    reflexivity.
Defined.

(** ** The order after the sort *)




(** The script of the source is [script_on] at the embedded data set. *)
Lemma script_on_data from parse print h :
  script from parse print h = script_on from parse print data h.
Proof.
  unfold script, script_on. destruct (from data None h) as [c h']. cbn [fst snd].
  by destruct (RegionCollection_from _ ∅).
Qed.
